(** * react-i18n-ai: cached AI translation, verified against its description

    A shallow embedding of
      - [hashText] and the coordinator [t]   (the [useTranslation] hook),
      - [loadCache], [saveCache], [getCachedTranslation],
        [setCachedTranslation]              (src/translationCache.ts),
      - [setAITranslateProvider], [aiTranslate]   (src/aiTranslate.ts).

    How the JavaScript is read:
      - numbers that stay inside the safe-integer range are [Z]; the
        32-bit operators [<<] and [|] carry their [ToInt32] conversions;
      - a string is a Rocq [string] (code units below 256); the hash
        loop itself is stated over any list of code units;
      - objects used as dictionaries are [gmap]s of their own
        properties; a read that would reach a member inherited from
        [Object.prototype], and any use of a stored document that is
        not a cache object, ends the run with the outcome [Beyond]:
        the model says nothing about what the code does from there;
      - the built-in prototypes are as the language defines them: no
        code has added to or changed [Object.prototype];
      - localStorage, the provider slot, the console and exceptions are
        threaded through a state-and-exception monad over [World];
      - an [async] function runs to completion before anything else
        happens, and its promise rejects exactly when the run throws. *)

From Stdlib Require Import ZArith String Ascii List DecimalString DecimalZ Lia.
From stdpp Require Import gmap strings.

Open Scope string_scope.
Open Scope list_scope.
Open Scope Z_scope.

(** ** JavaScript numbers as used by [hashText] *)

Module JsNum.

(** ECMAScript [ToInt32]: reduce modulo 2^32, then read as signed. *)
Definition ToInt32 (z : Z) : Z :=
  let int32bit := z mod 2 ^ 32 in
  if 2 ^ 31 <=? int32bit then int32bit - 2 ^ 32 else int32bit.

(** [a << n]: both operands converted, shift count masked to five
    bits, result again a signed 32-bit integer. *)
Definition shl (a n : Z) : Z :=
  ToInt32 (Z.shiftl (ToInt32 a) (Z.land n 31)).

(** [a | b] *)
Definition bor (a b : Z) : Z :=
  Z.lor (ToInt32 a) (ToInt32 b).

(** [Number.prototype.toString] on an integer: decimal digits with a
    leading minus sign for negatives. *)
Definition toString (z : Z) : string :=
  NilZero.string_of_int (Z.to_int z).

Definition int32 (z : Z) : Prop := - 2 ^ 31 <= z < 2 ^ 31.

(** Integers a double represents exactly. *)
Definition safe (z : Z) : Prop := - 2 ^ 53 < z < 2 ^ 53.

End JsNum.

(** ** Strings *)

(** [text.charCodeAt(i)] for every [i]: the code units of the text. *)
Definition charCodes (text : string) : list Z :=
  map (fun a => Z.of_N (N_of_ascii a)) (list_ascii_of_string text).

(** [s.startsWith(p)] *)
Definition startsWith (s p : string) : bool := String.prefix p s.

(** ** [hashText] *)

(** One turn of the loop body:
      hash = ((hash << 5) - hash) + chr;  hash |= 0;            *)
Definition hash_step (hash chr : Z) : Z :=
  let hash := (JsNum.shl hash 5 - hash) + chr in
  JsNum.bor hash 0.

(** The [for] loop over the code units, started from [hash]. *)
Definition hash_loop (units : list Z) (hash : Z) : Z :=
  fold_left hash_step units hash.

Definition hashText (text : string) : string :=
  JsNum.toString (hash_loop (charCodes text) 0).

(** The fingerprint as the description words it: a rolling
    accumulator [acc = (acc << 5) - acc + code], truncated to the signed
    32-bit range after every step, printed in decimal. *)
Module Reference.

Definition wrap32 (z : Z) : Z := (z + 2 ^ 31) mod 2 ^ 32 - 2 ^ 31.

Definition step (acc code : Z) : Z :=
  wrap32 (Z.shiftl acc 5 - acc + code).

Fixpoint roll (codes : list Z) (acc : Z) : Z :=
  match codes with
  | [] => acc
  | code :: rest => roll rest (step acc code)
  end.

Definition fingerprint (text : string) : string :=
  JsNum.toString (roll (charCodes text) 0).

End Reference.

(** ** The world the library runs in *)

(** The cache object: language, then text hash, then translation. *)
Abbreviation TranslationCache := (gmap string (gmap string string)).

(** A JSON value. *)
#[local] Set Warnings "-register-all".
Inductive Json :=
| JNull
| JBool (b : bool)
| JNumber (digits : string)
| JString (s : string)
| JArray (items : list Json)
| JObject (members : list (string * Json)).

(** What [JSON.parse] can hand back for a stored string: the document
    [null]; a cache object (every member an object, every member of
    these a string); or [DOther j], any other document [j] (a number,
    a string, a boolean, an array, an object with a member of another
    shape). *)
Inductive Doc :=
| DNull
| DCache (c : TranslationCache)
| DOther (j : Json).

(** A string held by localStorage, classified by what the code can see
    of it: the empty string, a string [JSON.parse] rejects, or the
    serialisation of a document.  [JSON.stringify] followed by
    [JSON.parse] is the identity on [Doc]. *)
Inductive Raw :=
| REmpty
| RMalformed
| RJson (d : Doc).

Record AITranslationRequest := {
  text : string;
  targetLanguage : string
}.

Record AITranslationResponse := {
  translatedText : string;
  detectedSourceLanguage : option string
}.

Inductive Exn :=
| DOMException      (* localStorage refused the call *)
| SyntaxError       (* JSON.parse *)
| TypeError         (* property access on null or undefined *)
| ProviderRejected  (* the provider's promise rejected *)
| ProviderThrew.    (* the provider threw before returning a promise *)

(** Everything observable that the code does, newest first; the
    [EvTranslate] marker records entry into [aiTranslate]. *)
Inductive Event :=
| EvGetItem (key : string)
| EvSetItem (key : string) (value : Raw)
| EvTranslate (req : AITranslationRequest)
| EvProvider (text targetLanguage : string)
| EvWarn (msg : string).

(** How a call of the provider ends.  The promise is taken to settle. *)
Inductive Settled :=
| Fulfilled (translated : string)
| Rejected
| Threw.

(** A provider function: its answer may depend on everything that
    happened before the call.  Providers are taken not to touch
    localStorage or the provider slot themselves. *)
Definition Provider := list Event -> string -> string -> Settled.

Record World := {
  localStorage : gmap string Raw;
  aiProviderTranslate : option Provider;
  (** whether the next localStorage call throws, given the history *)
  faulty : list Event -> bool;
  trace : list Event
}.

Definition record (e : Event) (w : World) : World :=
  {| localStorage := localStorage w;
     aiProviderTranslate := aiProviderTranslate w;
     faulty := faulty w;
     trace := e :: trace w |}.

Definition with_storage (s : gmap string Raw) (w : World) : World :=
  {| localStorage := s;
     aiProviderTranslate := aiProviderTranslate w;
     faulty := faulty w;
     trace := trace w |}.

Definition with_provider (p : option Provider) (w : World) : World :=
  {| localStorage := localStorage w;
     aiProviderTranslate := p;
     faulty := faulty w;
     trace := trace w |}.

(** ** State and exceptions *)

(** How a run ends: with a value, with an exception, or [Beyond]
    what this model describes (see [member] and [item]).  After
    [Beyond] neither the outcome nor the state of the real program is
    known. *)
Inductive Res (A : Type) :=
| Ok (a : A)
| Throw (e : Exn)
| Beyond.
Arguments Ok {A} a.
Arguments Throw {A} e.
Arguments Beyond {A}.

Definition M (A : Type) : Type := World -> Res A * World.

Definition ret {A} (a : A) : M A := fun w => (Ok a, w).

Definition throw {A} (e : Exn) : M A := fun w => (Throw e, w).

Definition beyond {A} : M A := fun w => (Beyond, w).

Definition bind {A B} (m : M A) (k : A -> M B) : M B := fun w =>
  match m w with
  | (Ok a, w') => k a w'
  | (Throw e, w') => (Throw e, w')
  | (Beyond, w') => (Beyond, w')
  end.

(** [try { m } catch (e) { h e }]: state changes made before the throw
    stay. *)
Definition try_catch {A} (m : M A) (h : Exn -> M A) : M A := fun w =>
  match m w with
  | (Ok a, w') => (Ok a, w')
  | (Throw e, w') => h e w'
  | (Beyond, w') => (Beyond, w')
  end.

Notation "'let*' x ':=' m 'in' k" := (bind m (fun x => k))
  (at level 10, x name, m at level 100, k at level 200).
Notation "m ';;;' k" := (bind m (fun _ => k))
  (at level 100, k at level 200, right associativity).

Definition emit (e : Event) : M unit := fun w => (Ok tt, record e w).

Definition result {A} (m : M A) (w : World) : Res A := fst (m w).
Definition after {A} (m : M A) (w : World) : World := snd (m w).

(** The events [m] adds when run from [w]. *)
Definition emitted {A} (m : M A) (w : World) : list Event :=
  take (length (trace (after m w)) - length (trace w))%nat
       (trace (after m w)).

(** ** Platform calls *)

Definition getItem (key : string) : M (option Raw) := fun w =>
  let w' := record (EvGetItem key) w in
  if faulty w (trace w) then (Throw DOMException, w')
  else (Ok (localStorage w !! key), w').

Definition setItem (key : string) (value : Raw) : M unit := fun w =>
  let w' := record (EvSetItem key value) w in
  if faulty w (trace w) then (Throw DOMException, w')
  else (Ok tt, with_storage (<[key := value]> (localStorage w)) w').

Definition JSON_parse (raw : Raw) : M Doc :=
  match raw with
  | REmpty | RMalformed => throw SyntaxError
  | RJson d => ret d
  end.

Definition JSON_stringify (d : Doc) : Raw := RJson d.

(** [raw ? _ : _] on a [string | null]. *)
Definition truthy_raw (raw : option Raw) : bool :=
  match raw with
  | None | Some REmpty => false
  | Some _ => true
  end.

(** [v ? _ : _] on a [string | undefined]. *)
Definition truthy (v : option string) : bool :=
  match v with
  | None => false
  | Some s => negb (String.eqb s "")
  end.

(** The string-keyed members of [Object.prototype]: every object made
    by [JSON.parse] or by [{}] inherits them. *)
Definition Object_prototype_names : list string :=
  [ "constructor"; "__defineGetter__"; "__defineSetter__";
    "hasOwnProperty"; "__lookupGetter__"; "__lookupSetter__";
    "isPrototypeOf"; "propertyIsEnumerable"; "toString"; "valueOf";
    "__proto__"; "toLocaleString" ].

Definition inherited (key : string) : bool :=
  existsb (String.eqb key) Object_prototype_names.

(** [cache[language]]: a [TypeError] on [null]; on a cache object the
    own property, or [undefined] when there is none and none is
    inherited.  An inherited member (a built-in function, or
    [Object.prototype] itself for "__proto__") is [Beyond], and so is
    any property of a document of another shape. *)
Definition member (cache : Doc) (language : string)
  : M (option (gmap string string)) :=
  match cache with
  | DNull => throw TypeError
  | DCache c =>
      match c !! language with
      | Some inner => ret (Some inner)
      | None => if inherited language then beyond else ret None
      end
  | DOther _ => beyond
  end.

(** [inner?.[hash]]: [undefined] when [inner] is; otherwise the own
    property, or [undefined] when there is none and none is inherited;
    [Beyond] for an inherited member. *)
Definition item (inner : option (gmap string string)) (hash : string)
  : M (option string) :=
  match inner with
  | None => ret None
  | Some m =>
      match m !! hash with
      | Some value => ret (Some value)
      | None => if inherited hash then beyond else ret None
      end
  end.

(** The members of [inner] after [inner[hash] = value]: the own
    property is set or created, except that with no own "__proto__"
    the assignment reaches the inherited setter, which ignores a
    string and changes nothing. *)
Definition put (m : gmap string string) (hash value : string)
  : gmap string string :=
  match m !! hash with
  | None => if String.eqb hash "__proto__" then m else <[hash := value]> m
  | Some _ => <[hash := value]> m
  end.

(** [cache[language] = inner] on a cache object, where the property
    is an own one or none is inherited under that name. *)
Definition assign (cache : Doc) (language : string)
    (inner : gmap string string) : M Doc :=
  match cache with
  | DNull => throw TypeError
  | DCache c =>
      match c !! language with
      | Some _ => ret (DCache (<[language := inner]> c))
      | None =>
          if inherited language then beyond
          else ret (DCache (<[language := inner]> c))
      end
  | DOther _ => beyond
  end.

Definition console_warn (msg : string) : M unit := emit (EvWarn msg).

(** ** src/translationCache.ts *)

Definition CACHE_KEY : string := "aiTranslationCache".

Definition loadCache : M Doc :=
  try_catch
    (let* raw := getItem CACHE_KEY in
     match raw with
     | Some r => if truthy_raw raw then JSON_parse r else ret (DCache ∅)
     | None => ret (DCache ∅)
     end)
    (fun _ => ret (DCache ∅)).

Definition saveCache (cache : Doc) : M unit :=
  try_catch
    (setItem CACHE_KEY (JSON_stringify cache))
    (fun _ => ret tt).

Definition getCachedTranslation (language hash : string)
  : M (option string) :=
  let* cache := loadCache in
  let* inner := member cache language in
  item inner hash.

Definition setCachedTranslation (language hash value : string) : M unit :=
  let* cache := loadCache in
  let* inner := member cache language in
  let* cache :=
    match inner with
    | None => assign cache language ∅
    | Some _ => ret cache
    end in
  let* inner := member cache language in
  let* cache :=
    match inner with
    | None => throw TypeError
    | Some m => assign cache language (put m hash value)
    end in
  saveCache cache.

(** ** src/aiTranslate.ts *)

Definition setAITranslateProvider (fn : Provider) : M unit := fun w =>
  (Ok tt, with_provider (Some fn) w).

(** [await aiProviderTranslate(text, targetLanguage)] *)
Definition await_provider (fn : Provider) (text targetLanguage : string)
  : M string := fun w =>
  let w' := record (EvProvider text targetLanguage) w in
  match fn (trace w) text targetLanguage with
  | Fulfilled translated => (Ok translated, w')
  | Rejected => (Throw ProviderRejected, w')
  | Threw => (Throw ProviderThrew, w')
  end.

Definition mock (req : AITranslationRequest) : AITranslationResponse :=
  {| translatedText := "[" +:+ targetLanguage req +:+ "] " +:+ text req;
     detectedSourceLanguage := Some "en" |}.

Definition aiTranslate (req : AITranslationRequest)
  : M AITranslationResponse :=
  emit (EvTranslate req) ;;;
  let* returned :=
    (fun w =>
       match aiProviderTranslate w with
       | Some fn =>
           try_catch
             (let* translated :=
                await_provider fn (text req) (targetLanguage req) in
              ret (Some {| translatedText := translated;
                           detectedSourceLanguage := Some "en" |}))
             (fun _ =>
                console_warn
                  "[aiTranslate] Provider threw error, falling back to mock:"
                ;;; ret None)
             w
       | None => ret None w
       end) in
  match returned with
  | Some response => ret response
  | None =>
      console_warn "[aiTranslate] Fallback to mock translation" ;;;
      ret (mock req)
  end.

(** ** The hook: [t] for a current [language] *)

Definition marker (language : string) : string :=
  "[" +:+ language +:+ "] ".

Definition t (language : string) (text : string) : M string :=
  if String.eqb language "en" then ret text else
  let hash := hashText text in
  let* cached := getCachedTranslation language hash in
  let isFallback :=
    truthy cached && startsWith (default "" cached) (marker language) in
  if truthy cached && negb isFallback then ret (default "" cached) else
  let* res := aiTranslate {| text := text; targetLanguage := language |} in
  setCachedTranslation language hash (translatedText res) ;;;
  ret (translatedText res).

(** ** Vocabulary for the statements *)

(** [cache[language]?.[hash]] on a cache object. *)
Definition lookup2 (c : TranslationCache) (language hash : string)
  : option string :=
  c !! language ≫= (fun m => m !! hash).

(** The cache object after [cache[language][hash] = value], with
    [cache[language]] created when it was missing. *)
Definition upsert (c : TranslationCache) (language hash value : string)
  : TranslationCache :=
  <[language := <[hash := value]> (default ∅ (c !! language))]> c.

(** What the next [loadCache] returns in [w]. *)
Definition loaded (w : World) : Doc :=
  if faulty w (trace w) then DCache ∅ else
  match localStorage w !! CACHE_KEY with
  | Some (RJson d) => d
  | _ => DCache ∅
  end.

(** The world after [saveCache d] in [w]. *)
Definition saved (d : Doc) (w : World) : World :=
  let w' := record (EvSetItem CACHE_KEY (RJson d)) w in
  if faulty w (trace w) then w'
  else with_storage (<[CACHE_KEY := RJson d]> (localStorage w)) w'.

(** The persisted translation for (language, hash), if the stored
    item is a cache object that has one. *)
Definition entry (w : World) (language hash : string) : option string :=
  match localStorage w !! CACHE_KEY with
  | Some (RJson (DCache c)) => lookup2 c language hash
  | _ => None
  end.

(** The stored item, if there is one, is empty, unparsable or a cache
    object. *)
Definition object_store (w : World) : Prop :=
  match localStorage w !! CACHE_KEY with
  | Some (RJson DNull) | Some (RJson (DOther _)) => False
  | _ => True
  end.

(** The stored item, if there is one, is empty, unparsable, [null] or
    a cache object. *)
Definition typed_store (w : World) : Prop :=
  match localStorage w !! CACHE_KEY with
  | Some (RJson (DOther _)) => False
  | _ => True
  end.

(** A key under which no object inherits anything. *)
Definition plain (key : string) : Prop := inherited key = false.

(** What [cache[language]?.[hash]] evaluates to on a cache object. *)
Definition read (c : TranslationCache) (language hash : string)
  : Res (option string) :=
  match c !! language with
  | Some m =>
      match m !! hash with
      | Some value => Ok (Some value)
      | None => if inherited hash then Beyond else Ok None
      end
  | None => if inherited language then Beyond else Ok None
  end.

(** The cache object that [setCachedTranslation] passes to [saveCache]
    when it loaded [c]; none when the run is [Beyond]. *)
Definition written (c : TranslationCache) (language hash value : string)
  : option TranslationCache :=
  match c !! language with
  | Some m => Some (<[language := put m hash value]> c)
  | None =>
      if inherited language then None
      else Some (<[language := put ∅ hash value]> c)
  end.

(** localStorage never throws in this world. *)
Definition reliable (w : World) : Prop :=
  forall history, faulty w history = false.

(** A cached value the coordinator returns as it is. *)
Definition usable (language value : string) : Prop :=
  value <> "" /\ startsWith value (marker language) = false.

(** No provider is registered, or the registered one never fulfils
    for this text and language. *)
Definition provider_down (w : World) (text language : string) : Prop :=
  match aiProviderTranslate w with
  | None => True
  | Some fn => forall history,
      fn history text language = Rejected \/
      fn history text language = Threw
  end.

(** No provider is registered in [w], or the call that [aiTranslate req]
    makes when entered in [w] rejects or throws. *)
Definition provider_fails (w : World) (req : AITranslationRequest) : Prop :=
  match aiProviderTranslate w with
  | None => True
  | Some fn =>
      match fn (EvTranslate req :: trace w) (text req) (targetLanguage req) with
      | Fulfilled _ => False
      | Rejected | Threw => True
      end
  end.

(** Number of times a registered provider function was called. *)
Fixpoint provider_calls (events : list Event) : nat :=
  match events with
  | [] => 0%nat
  | EvProvider _ _ :: rest => S (provider_calls rest)
  | _ :: rest => provider_calls rest
  end.

(** The run that moved [w] to [w'] ended by handing localStorage a
    cache object that holds [value] under (language, hash); the item
    is stored unless that very call threw. *)
Definition wrote_entry (w w' : World) (language hash value : string)
  : Prop :=
  exists c,
    head (trace w') = Some (EvSetItem CACHE_KEY (RJson (DCache c))) /\
    lookup2 c language hash = Some value /\
    (faulty w (tail (trace w')) = false ->
     localStorage w' !! CACHE_KEY = Some (RJson (DCache c))).

(** Two calls of [t] in sequence, the second starting when the first
    has resolved. *)
Definition twice (language text : string) : M (string * string) :=
  let* first := t language text in
  let* second := t language text in
  ret (first, second).

Definition extend (events : list Event) (w : World) : World :=
  {| localStorage := localStorage w;
     aiProviderTranslate := aiProviderTranslate w;
     faulty := faulty w;
     trace := events ++ trace w |}.

(** The events of a fallback after a failed provider call. *)
Definition failed_call (req : AITranslationRequest) : list Event :=
  [ EvWarn "[aiTranslate] Fallback to mock translation";
    EvWarn "[aiTranslate] Provider threw error, falling back to mock:";
    EvProvider (text req) (targetLanguage req);
    EvTranslate req ].

(** What a reliable localStorage loads, as a cache object. *)
Definition stored_cache (w : World) : TranslationCache :=
  match localStorage w !! CACHE_KEY with
  | Some (RJson (DCache c)) => c
  | _ => ∅
  end.

(** The test [cached && !isFallback] of [t]. *)
Definition trusted (language : string) (cached : option string) : bool :=
  truthy cached &&
  negb (truthy cached && startsWith (default "" cached) (marker language)).

(** What [t] does after an unusable lookup. *)
Definition retranslate (language text : string) : M string :=
  let* res := aiTranslate {| text := text; targetLanguage := language |} in
  setCachedTranslation language (hashText text) (translatedText res) ;;;
  ret (translatedText res).

(** [t] answered from the cache: it resolved to the cached value and
    all it did was the one localStorage read of the lookup. *)
Definition served_from_cache (w : World) (language text value : string)
  : Prop :=
  result (getCachedTranslation language (hashText text)) w = Ok (Some value) /\
  result (t language text) w = Ok value /\
  after (t language text) w =
    after (getCachedTranslation language (hashText text)) w /\
  emitted (t language text) w = [EvGetItem CACHE_KEY].

(** The short-circuit rule with "a cached value exists and does not
    start with the marker" as its condition. *)
Definition prefix_only_rule (w : World) (language text : string) : Prop :=
  (exists value, served_from_cache w language text value) <->
  (exists value,
      result (getCachedTranslation language (hashText text)) w
        = Ok (Some value) /\
      startsWith value (marker language) = false).

(** The fallback rule read for every text and language: with no
    usable provider, [aiTranslate] answers with the marker, [t]
    resolves to it, and the cache holds it afterwards. *)
Definition fallback_rule (w : World) (language text : string) : Prop :=
  provider_down w text language ->
  let req := {| text := text; targetLanguage := language |} in
  result (aiTranslate req) w = Ok (mock req) /\
  result (t language text) w = Ok (translatedText (mock req)) /\
  entry (after (t language text) w) language (hashText text)
    = Some (translatedText (mock req)).

(** The idempotence rule as worded: with a provider registered and
    localStorage working, two calls in sequence give the same answer
    and call the provider at most once between them. *)
Definition idempotence_rule (w : World) (language text : string) : Prop :=
  is_Some (aiProviderTranslate w) ->
  reliable w ->
  (exists answer, result (twice language text) w = Ok (answer, answer)) /\
  (provider_calls (emitted (twice language text) w) <= 1)%nat.

(** ** Sample worlds *)

Definition quiet (storage : gmap string Raw) (fn : option Provider) : World :=
  {| localStorage := storage;
     aiProviderTranslate := fn;
     faulty := fun _ => false;
     trace := [] |}.

Definition hola : Provider := fun _ _ _ => Fulfilled "Hola".

Definition rejecting : Provider := fun _ _ _ => Rejected.

(** A provider that answers with the empty string, then with "Hola". *)
Definition late_answer : Provider := fun history _ _ =>
  match provider_calls history with
  | O => Fulfilled ""
  | _ => Fulfilled "Hola"
  end.

(** localStorage that throws on every [setItem] and on nothing else. *)
Definition write_fails (history : list Event) : bool :=
  match history with
  | EvGetItem _ :: _ => true
  | _ => false
  end.

(** localStorage that throws on its first call only. *)
Definition first_call_fails (history : list Event) : bool :=
  match history with
  | [] => true
  | _ => false
  end.

(** A cache holding a real translation of "Hello" into Spanish. *)
Definition hola_world : World :=
  quiet {[ CACHE_KEY :=
             RJson (DCache {[ "es" := {[ hashText "Hello" := "Hola" ]} ]}) ]}
        None.

(** A cache whose entry for "Hello" in Spanish is the empty string. *)
Definition empty_entry_world : World :=
  quiet {[ CACHE_KEY :=
             RJson (DCache {[ "es" := {[ hashText "Hello" := "" ]} ]}) ]}
        None.

(** A cache that holds the fallback marker for "Hello", and a
    provider that has since been registered. *)
Definition healed_world : World :=
  quiet {[ CACHE_KEY :=
             RJson (DCache {[ "es" := {[ hashText "Hello" := "[es] Hello" ]} ]}) ]}
        (Some hola).

Definition null_world : World :=
  quiet {[ CACHE_KEY := RJson DNull ]} None.

(** ** Vocabulary for the further properties *)

(** The code units read as digits in base 31, in unbounded integers:
    what the hash loop would compute without any wrap-around. *)
Definition horner (units : list Z) (start : Z) : Z :=
  fold_left (fun acc chr => 31 * acc + chr) units start.

(** Number of [localStorage.setItem] calls among the events. *)
Fixpoint setItem_calls (events : list Event) : nat :=
  match events with
  | [] => 0%nat
  | EvSetItem _ _ :: rest => S (setItem_calls rest)
  | _ :: rest => setItem_calls rest
  end.

(** Every [setItem] among the events stores a cache object under
    [CACHE_KEY]. *)
Definition writes_cache_objects (events : list Event) : Prop :=
  forall key value,
    In (EvSetItem key value) events ->
    key = CACHE_KEY /\ exists c, value = RJson (DCache c).

(** All localStorage keys but [CACHE_KEY] hold in [w'] what they held
    in [w]. *)
Definition other_keys_kept (w w' : World) : Prop :=
  forall key, key <> CACHE_KEY ->
    localStorage w' !! key = localStorage w !! key.

(** [loadCache] finds nothing it can use: the read throws, or the
    item is absent, empty or unparsable. *)
Definition unreadable (w : World) : Prop :=
  faulty w (trace w) = true \/
  localStorage w !! CACHE_KEY = None \/
  localStorage w !! CACHE_KEY = Some REmpty \/
  localStorage w !! CACHE_KEY = Some RMalformed.

(** A first [t] with no provider registered, then a provider is
    registered, then two more [t] for the same text. *)
Definition heal (fn : Provider) (language text : string)
  : M (string * string * string) :=
  let* before := t language text in
  setAITranslateProvider fn ;;;
  let* healed := t language text in
  let* again := t language text in
  ret (before, healed, again).

(** One use of the library by its host. *)
Inductive Call :=
| CallT (language text : string)
| CallRegister (fn : Provider)
| CallGet (language hash : string)
| CallSet (language hash value : string).

(** The world after one call, whether it returned or threw. *)
Definition perform (c : Call) (w : World) : World :=
  match c with
  | CallT language text => after (t language text) w
  | CallRegister fn => after (setAITranslateProvider fn) w
  | CallGet language hash => after (getCachedTranslation language hash) w
  | CallSet language hash value =>
      after (setCachedTranslation language hash value) w
  end.

(** The world after a sequence of calls, each started when the one
    before has finished. *)
Definition session (calls : list Call) (w : World) : World :=
  fold_left (fun w c => perform c w) calls w.

(** The call names only keys under which no object inherits: the
    language of a [t] or of a write, the language and the hash of a
    lookup. *)
Definition plain_call (c : Call) : Prop :=
  match c with
  | CallT language _ => plain language
  | CallRegister _ => True
  | CallGet language hash => plain language /\ plain hash
  | CallSet language _ _ => plain language
  end.

(** The call, made in [w], ends inside what the model describes. *)
Definition described (c : Call) (w : World) : Prop :=
  match c with
  | CallT language text => result (t language text) w <> Beyond
  | CallRegister fn => result (setAITranslateProvider fn) w <> Beyond
  | CallGet language hash =>
      result (getCachedTranslation language hash) w <> Beyond
  | CallSet language hash value =>
      result (setCachedTranslation language hash value) w <> Beyond
  end.

(** Every call of the sequence does, each in the world the calls
    before it left. *)
Fixpoint all_described (calls : list Call) (w : World) : Prop :=
  match calls with
  | [] => True
  | c :: rest => described c w /\ all_described rest (perform c w)
  end.

(** * Properties *)

(** ** Arithmetic of the hash *)

Section Int32.

Local Open Scope Z_scope.

Lemma ToInt32_wrap32 (z : Z) : JsNum.ToInt32 z = Reference.wrap32 z.
Proof.
  unfold JsNum.ToInt32, Reference.wrap32.
  destruct (Z.leb_spec (2 ^ 31) (z mod 2 ^ 32)); Z.div_mod_to_equations; lia.
Qed.

Lemma ToInt32_int32 (z : Z) : JsNum.int32 (JsNum.ToInt32 z).
Proof.
  rewrite ToInt32_wrap32. unfold JsNum.int32, Reference.wrap32.
  Z.div_mod_to_equations; lia.
Qed.

Lemma ToInt32_small (z : Z) : JsNum.int32 z -> JsNum.ToInt32 z = z.
Proof.
  rewrite ToInt32_wrap32. unfold JsNum.int32, Reference.wrap32.
  intros H. Z.div_mod_to_equations; lia.
Qed.

(** [ToInt32] only moves its argument by a multiple of 2^32. *)
Lemma ToInt32_shift (z : Z) : exists k, JsNum.ToInt32 z = z + k * 2 ^ 32.
Proof.
  rewrite ToInt32_wrap32. unfold Reference.wrap32.
  exists (- ((z + 2 ^ 31) / 2 ^ 32)).
  Z.div_mod_to_equations; lia.
Qed.

Lemma wrap32_period (z k : Z) :
  Reference.wrap32 (z + k * 2 ^ 32) = Reference.wrap32 z.
Proof.
  unfold Reference.wrap32.
  replace (z + k * 2 ^ 32 + 2 ^ 31) with (z + 2 ^ 31 + k * 2 ^ 32) by lia.
  now rewrite Z_mod_plus_full.
Qed.

Lemma shl_5 (a : Z) : JsNum.shl a 5 = JsNum.ToInt32 (JsNum.ToInt32 a * 32).
Proof.
  unfold JsNum.shl. change (Z.land 5 31) with 5.
  now rewrite Z.shiftl_mul_pow2 by lia.
Qed.

Lemma bor_0 (a : Z) : JsNum.bor a 0 = JsNum.ToInt32 a.
Proof.
  unfold JsNum.bor. change (JsNum.ToInt32 0) with 0. apply Z.lor_0_r.
Qed.

(** The loop body is the reference step, whatever the accumulator. *)
Lemma hash_step_reference (hash chr : Z) :
  hash_step hash chr = Reference.step hash chr.
Proof.
  unfold hash_step, Reference.step.
  rewrite bor_0, shl_5, Z.shiftl_mul_pow2 by lia.
  destruct (ToInt32_shift hash) as [k Hk].
  destruct (ToInt32_shift (JsNum.ToInt32 hash * 32)) as [k' Hk'].
  rewrite Hk', Hk, ToInt32_wrap32.
  replace ((hash + k * 2 ^ 32) * 32 + k' * 2 ^ 32 - hash + chr)
    with (hash * 2 ^ 5 - hash + chr + (32 * k + k') * 2 ^ 32) by lia.
  apply wrap32_period.
Qed.

Lemma hash_step_int32 (hash chr : Z) : JsNum.int32 (hash_step hash chr).
Proof. unfold hash_step. rewrite bor_0. apply ToInt32_int32. Qed.

(** Before [hash |= 0] the value is an integer a double holds exactly,
    so reading the JavaScript arithmetic in [Z] loses nothing. *)
Lemma hash_step_safe (hash chr : Z) :
  JsNum.int32 hash -> 0 <= chr < 2 ^ 16 ->
  JsNum.int32 (JsNum.shl hash 5) /\
  JsNum.safe (JsNum.shl hash 5 - hash) /\
  JsNum.safe (JsNum.shl hash 5 - hash + chr).
Proof.
  intros Hh Hc.
  pose proof (ToInt32_int32 (Z.shiftl (JsNum.ToInt32 hash) (Z.land 5 31))) as Hs.
  fold (JsNum.shl hash 5) in Hs.
  unfold JsNum.int32, JsNum.safe in *. lia.
Qed.

Lemma hash_loop_reference (units : list Z) (hash : Z) :
  hash_loop units hash = Reference.roll units hash.
Proof.
  revert hash. induction units as [|chr units IH]; intros hash; simpl.
  - reflexivity.
  - unfold hash_loop in *. simpl. now rewrite IH, hash_step_reference.
Qed.

Lemma hash_loop_int32 (units : list Z) (hash : Z) :
  JsNum.int32 hash -> JsNum.int32 (hash_loop units hash).
Proof.
  revert hash. induction units as [|chr units IH]; intros hash Hh.
  - exact Hh.
  - unfold hash_loop in *. simpl. apply IH, hash_step_int32.
Qed.

Lemma charCodes_range (text : string) (chr : Z) :
  In chr (charCodes text) -> 0 <= chr < 2 ^ 16.
Proof.
  unfold charCodes. rewrite in_map_iff. intros (a & <- & _).
  pose proof (N_ascii_bounded a). lia.
Qed.

End Int32.

(** C6. [hashText] is a function of its argument alone (it lives
    outside the effect monad), and on every string it returns the
    decimal form of the reference rolling hash: start from 0, update
    [acc = (acc << 5) - acc + code] truncated to the signed 32-bit
    range after every code unit.  The loop itself agrees with the
    reference on every list of code units and every start value. *)
Theorem hashText_is_reference_fingerprint :
  (forall text : string, hashText text = Reference.fingerprint text) /\
  (forall (units : list Z) (acc : Z),
      hash_loop units acc = Reference.roll units acc).
Proof.
  split.
  - intros text. unfold hashText, Reference.fingerprint.
    now rewrite hash_loop_reference.
  - apply hash_loop_reference.
Qed.

Example hashText_Hello : hashText "Hello" = "69609650".
Proof. reflexivity. Qed.

Example hashText_wraps : hashText "Hello world" = "-832992604".
Proof. vm_compute. reflexivity. Qed.

(** ** Running the cache store *)

Lemma loadCache_run (w : World) :
  loadCache w = (Ok (loaded w), record (EvGetItem CACHE_KEY) w).
Proof.
  unfold loadCache, loaded, try_catch, bind, getItem; simpl.
  destruct (faulty w (trace w)); [reflexivity|].
  destruct (localStorage w !! CACHE_KEY) as [[| |d]|]; reflexivity.
Qed.

Lemma saveCache_run (d : Doc) (w : World) :
  saveCache d w = (Ok tt, saved d w).
Proof.
  unfold saveCache, saved, try_catch, setItem, JSON_stringify; simpl.
  destruct (faulty w (trace w)); reflexivity.
Qed.

Lemma getCachedTranslation_run (language hash : string) (w : World) :
  getCachedTranslation language hash w =
  (match loaded w with
   | DNull => Throw TypeError
   | DCache c => read c language hash
   | DOther _ => Beyond
   end,
   record (EvGetItem CACHE_KEY) w).
Proof.
  unfold getCachedTranslation, bind. rewrite loadCache_run.
  destruct (loaded w) as [|c|j]; try reflexivity.
  unfold read, member, item. simpl.
  destruct (c !! language) as [m|]; simpl.
  - destruct (m !! hash); [reflexivity|].
    destruct (inherited hash); reflexivity.
  - destruct (inherited language); reflexivity.
Qed.

Lemma getCachedTranslation_after (language hash : string) (w : World) :
  after (getCachedTranslation language hash) w
    = record (EvGetItem CACHE_KEY) w.
Proof. unfold after. now rewrite getCachedTranslation_run. Qed.

Lemma setCachedTranslation_run (language hash value : string) (w : World) :
  setCachedTranslation language hash value w =
  match loaded w with
  | DNull => (Throw TypeError, record (EvGetItem CACHE_KEY) w)
  | DCache c =>
      match written c language hash value with
      | Some c' => (Ok tt, saved (DCache c') (record (EvGetItem CACHE_KEY) w))
      | None => (Beyond, record (EvGetItem CACHE_KEY) w)
      end
  | DOther _ => (Beyond, record (EvGetItem CACHE_KEY) w)
  end.
Proof.
  unfold setCachedTranslation, bind. rewrite loadCache_run.
  destruct (loaded w) as [|c|j]; try reflexivity.
  unfold written, member, assign. simpl.
  destruct (c !! language) as [m|] eqn:E; simpl.
  - rewrite !E. simpl. apply saveCache_run.
  - destruct (inherited language); [reflexivity|]. simpl.
    rewrite ?E. simpl. rewrite !lookup_insert_eq. simpl.
    rewrite insert_insert_eq. apply saveCache_run.
Qed.

(** ** Running the provider indirection *)

Lemma aiTranslate_run (req : AITranslationRequest) (w : World) :
  aiTranslate req w =
  match aiProviderTranslate w with
  | None =>
      (Ok (mock req),
       extend [EvWarn "[aiTranslate] Fallback to mock translation";
               EvTranslate req] w)
  | Some fn =>
      match fn (EvTranslate req :: trace w) (text req) (targetLanguage req) with
      | Fulfilled translated =>
          (Ok {| translatedText := translated;
                 detectedSourceLanguage := Some "en" |},
           extend [EvProvider (text req) (targetLanguage req);
                   EvTranslate req] w)
      | Rejected | Threw => (Ok (mock req), extend (failed_call req) w)
      end
  end.
Proof.
  unfold aiTranslate, bind, emit, try_catch, await_provider, console_warn,
    emit, ret, extend, failed_call, record; simpl.
  destruct (aiProviderTranslate w) as [fn|]; [|reflexivity].
  destruct (fn _ _ _); reflexivity.
Qed.

(** [aiTranslate] always returns, and leaves localStorage, the slot
    and the fault pattern alone. *)
Lemma aiTranslate_returns (req : AITranslationRequest) (w : World) :
  exists res events,
    aiTranslate req w = (Ok res, extend events w) /\
    In (EvTranslate req) events /\
    (provider_calls events <= 1)%nat /\
    (is_Some (aiProviderTranslate w) ->
     In (EvProvider (text req) (targetLanguage req)) events).
Proof.
  rewrite aiTranslate_run.
  destruct (aiProviderTranslate w) as [fn|].
  - destruct (fn _ _ _); eexists _, _; (split; [reflexivity|]);
      simpl; repeat split; auto.
  - eexists _, _; (split; [reflexivity|]); simpl. repeat split; auto.
    intros [fn Hfn]. discriminate.
Qed.

(** ** Traces *)

Lemma emitted_prefix {A} (m : M A) (w : World) (events : list Event) :
  trace (after m w) = events ++ trace w -> emitted m w = events.
Proof.
  intros H. unfold emitted. rewrite H, length_app.
  replace (length events + length (trace w) - length (trace w))%nat
    with (length events) by lia.
  apply take_app_length.
Qed.

Lemma emitted_app_cons {A} (m : M A) (w : World)
    (events : list Event) (e : Event) :
  trace (after m w) = events ++ e :: trace w ->
  emitted m w = events ++ [e].
Proof.
  intros H. apply emitted_prefix. now rewrite H, <- app_assoc.
Qed.

Lemma run_split {A} (m : M A) (w : World) : m w = (result m w, after m w).
Proof. unfold result, after. now destruct (m w). Qed.

Lemma provider_calls_app (l k : list Event) :
  provider_calls (l ++ k) = (provider_calls l + provider_calls k)%nat.
Proof.
  induction l as [|e l IH]; simpl; [reflexivity|].
  destruct e; simpl; rewrite IH; reflexivity.
Qed.

(** ** Keys that inherit nothing *)

Lemma plain_not_proto (key : string) :
  plain key -> String.eqb key "__proto__" = false.
Proof.
  unfold plain, inherited. intros H.
  destruct (String.eqb_spec key "__proto__") as [->|]; [|reflexivity].
  discriminate.
Qed.

Lemma string_of_uint_plain (d : Decimal.uint) :
  d <> Decimal.Nil -> plain (NilZero.string_of_uint d).
Proof. intros H. destruct d; [contradiction|reflexivity..]. Qed.

(** A hash is a decimal numeral: it names no member of
    [Object.prototype]. *)
Lemma hashText_plain (text : string) : plain (hashText text).
Proof.
  unfold hashText, JsNum.toString.
  set (z := hash_loop (charCodes text) 0).
  destruct (Z.to_int z) as [d|d] eqn:E.
  - apply string_of_uint_plain. intros ->.
    pose proof (DecimalZ.of_to z) as H. rewrite E in H. subst z.
    rewrite <- H in E. discriminate.
  - reflexivity.
Qed.

Lemma put_insert (m : gmap string string) (hash value : string) :
  plain hash -> put m hash value = <[hash := value]> m.
Proof.
  intros H. unfold put. rewrite (plain_not_proto _ H).
  now destruct (m !! hash).
Qed.

Lemma read_own (c : TranslationCache) (language hash value : string) :
  lookup2 c language hash = Some value ->
  read c language hash = Ok (Some value).
Proof.
  unfold lookup2, read. destruct (c !! language) as [m|]; simpl; [|discriminate].
  now intros ->.
Qed.

Lemma read_plain (c : TranslationCache) (language hash : string) :
  plain language -> plain hash ->
  read c language hash = Ok (lookup2 c language hash).
Proof.
  unfold plain, lookup2, read. intros -> ->.
  destruct (c !! language) as [m|]; simpl; [|reflexivity].
  now destruct (m !! hash).
Qed.

(** A read that the model describes returns the own entry. *)
Lemma read_ok (c : TranslationCache) (language hash : string)
    (cached : option string) :
  read c language hash = Ok cached -> cached = lookup2 c language hash.
Proof.
  unfold lookup2, read. destruct (c !! language) as [m|]; simpl.
  - destruct (m !! hash); [congruence|].
    destruct (inherited hash); congruence.
  - destruct (inherited language); congruence.
Qed.

Lemma written_plain (c : TranslationCache) (language hash value : string) :
  plain language -> plain hash ->
  written c language hash value = Some (upsert c language hash value).
Proof.
  unfold plain, written, upsert. intros Hl Hh. rewrite Hl.
  destruct (c !! language); simpl; now rewrite put_insert.
Qed.

(** Where the read of a language is described, so is the write. *)
Lemma written_after_read (c : TranslationCache)
    (language hash hash' value : string) (cached : option string) :
  read c language hash' = Ok cached -> plain hash ->
  written c language hash value = Some (upsert c language hash value).
Proof.
  unfold read, written, upsert. intros Hread Hh.
  destruct (c !! language); simpl.
  - now rewrite put_insert.
  - destruct (inherited language); [discriminate|]. now rewrite put_insert.
Qed.

(** ** The coordinator, step by step *)

Lemma trusted_usable (language : string) (cached : option string) :
  trusted language cached = true <->
  exists value, cached = Some value /\ usable language value.
Proof.
  unfold trusted, usable, truthy. split.
  - destruct cached as [value|]; simpl; [|discriminate].
    destruct (String.eqb_spec value ""); simpl; [discriminate|].
    intros H. exists value. repeat split; auto.
    now apply negb_true_iff.
  - intros (value & -> & Hne & Hp). simpl.
    destruct (String.eqb_spec value ""); [contradiction|]. simpl.
    now rewrite Hp.
Qed.

Lemma t_en (text : string) (w : World) : t "en" text w = (Ok text, w).
Proof. reflexivity. Qed.

Lemma t_run (language text : string) (w : World) :
  language <> "en" ->
  t language text w =
  match getCachedTranslation language (hashText text) w with
  | (Ok cached, w1) =>
      if trusted language cached then (Ok (default "" cached), w1)
      else retranslate language text w1
  | (Throw e, w1) => (Throw e, w1)
  | (Beyond, w1) => (Beyond, w1)
  end.
Proof.
  intros Hne. unfold t.
  destruct (String.eqb_spec language "en"); [contradiction|].
  unfold bind at 1.
  destruct (getCachedTranslation _ _ w) as [[cached|e|] w1]; try reflexivity.
  unfold trusted. destruct (truthy cached && negb _); reflexivity.
Qed.

Lemma t_miss (language text : string) (w : World) (cached : option string) :
  language <> "en" ->
  result (getCachedTranslation language (hashText text)) w = Ok cached ->
  trusted language cached = false ->
  t language text w =
  retranslate language text (record (EvGetItem CACHE_KEY) w).
Proof.
  intros Hne Hget Htrust. rewrite (t_run _ _ _ Hne).
  rewrite (run_split (getCachedTranslation _ _) w), Hget.
  now rewrite getCachedTranslation_after, Htrust.
Qed.

Lemma retranslate_run (language text : string) (w : World) :
  exists res events,
    aiTranslate {| text := text; targetLanguage := language |} w
      = (Ok res, extend events w) /\
    retranslate language text w =
    match loaded (extend events w) with
    | DNull =>
        (Throw TypeError, record (EvGetItem CACHE_KEY) (extend events w))
    | DCache c =>
        match written c language (hashText text) (translatedText res) with
        | Some c' =>
            (Ok (translatedText res),
             saved (DCache c')
                   (record (EvGetItem CACHE_KEY) (extend events w)))
        | None => (Beyond, record (EvGetItem CACHE_KEY) (extend events w))
        end
    | DOther _ => (Beyond, record (EvGetItem CACHE_KEY) (extend events w))
    end.
Proof.
  destruct (aiTranslate_returns {| text := text; targetLanguage := language |} w)
    as (res & events & Hrun & _).
  exists res, events. split; [exact Hrun|].
  unfold retranslate, bind. rewrite Hrun, setCachedTranslation_run.
  destruct (loaded _) as [|c|j]; try reflexivity.
  destruct (written _ _ _ _); reflexivity.
Qed.

(** A stored item that is empty, unparsable or a cache object loads
    as a cache object, whatever happened in between. *)
Lemma loaded_object (w w' : World) :
  object_store w -> localStorage w' = localStorage w ->
  exists c, loaded w' = DCache c.
Proof.
  unfold object_store, loaded. intros Hobj ->.
  destruct (faulty w' (trace w')); [eauto|].
  destruct (localStorage w !! CACHE_KEY) as [[| |[|c|j]]|];
    try contradiction; eauto.
Qed.

(** C5. With the language "en", [t] resolves to its argument and
    leaves the world as it found it: no localStorage call, no entry
    into [aiTranslate], no provider call, nothing logged. *)
Theorem t_en_returns_text_untouched (text : string) (w : World) :
  result (t "en" text) w = Ok text /\
  after (t "en" text) w = w /\
  emitted (t "en" text) w = [].
Proof.
  unfold result, after. rewrite t_en. simpl. repeat split.
  apply (emitted_prefix (t "en" text) w []).
  unfold after. now rewrite t_en.
Qed.

(** ** Worlds after a save *)

Ltac by_fault :=
  unfold saved; simpl;
  match goal with
  | |- context [faulty ?w ?history] => destruct (faulty w history)
  end; reflexivity.

Lemma saved_trace (d : Doc) (w : World) :
  trace (saved d w) = EvSetItem CACHE_KEY (RJson d) :: trace w.
Proof. by_fault. Qed.

Lemma saved_storage (d : Doc) (w : World) :
  localStorage (saved d w) =
  if faulty w (trace w) then localStorage w
  else <[CACHE_KEY := RJson d]> (localStorage w).
Proof. by_fault. Qed.

Lemma saved_provider (d : Doc) (w : World) :
  aiProviderTranslate (saved d w) = aiProviderTranslate w.
Proof. by_fault. Qed.

Lemma saved_faulty (d : Doc) (w : World) :
  faulty (saved d w) = faulty w.
Proof. by_fault. Qed.

Create Rewrite HintDb saved.
#[local] Hint Rewrite saved_trace saved_storage saved_provider saved_faulty
  : saved.

Lemma retranslate_emits (language text : string) (w : World) :
  exists events,
    trace (after (retranslate language text) w) = events ++ trace w /\
    In (EvTranslate {| text := text; targetLanguage := language |}) events.
Proof.
  destruct (aiTranslate_returns {| text := text; targetLanguage := language |} w)
    as (res & events & Hrun & Hin & _).
  destruct (retranslate_run language text w) as (res' & events' & Hrun' & Hre).
  rewrite Hrun in Hrun'. injection Hrun' as <- Hev.
  apply app_inv_tail in Hev. subst events'.
  unfold after. rewrite Hre.
  assert (exists more,
             trace (record (EvGetItem CACHE_KEY) (extend events w))
               = more ++ trace w /\
             In (EvTranslate {| text := text; targetLanguage := language |})
                more) as Hstop.
  { exists (EvGetItem CACHE_KEY :: events). split; [reflexivity|now right]. }
  destruct (loaded _) as [|c|j]; simpl; try exact Hstop.
  destruct (written _ _ _ _); simpl; [|exact Hstop].
  rewrite saved_trace. simpl.
  eexists (_ :: _ :: events). split; [reflexivity|]. now right; right.
Qed.

(** ** The cache short-circuit *)

(** C2, as worded, fails: a cached empty string exists and does not
    start with "[es] ", yet [t] does not return it from the cache. *)
Lemma empty_cached_value_not_served :
  ~ prefix_only_rule empty_entry_world "es" "Hello".
Proof.
  intros [_ H].
  destruct H as (value & Hget & Hres & _).
  - exists "". split; vm_compute; reflexivity.
  - vm_compute in Hget. vm_compute in Hres. congruence.
Qed.

(** C2, amended. For a language other than "en", [t] returns the
    cached value at once (one localStorage read, no entry into
    [aiTranslate], no write) exactly when the lookup finds a value
    that is non-empty and does not start with "[" + language + "] ".
    So a cached translation that does begin with that marker is not
    served from the cache. *)
Theorem t_serves_exactly_usable_entries
    (language text : string) (w : World) :
  language <> "en" ->
  (exists value, served_from_cache w language text value) <->
  (exists value,
      result (getCachedTranslation language (hashText text)) w
        = Ok (Some value) /\
      usable language value).
Proof.
  intros Hne. unfold served_from_cache, result, after.
  rewrite (t_run language text w Hne).
  destruct (getCachedTranslation language (hashText text) w)
    as [[cached|e|] w1] eqn:Hget; simpl.
  2,3: split; intros (value & H); destruct H as [H _]; discriminate.
  assert (trace w1 = EvGetItem CACHE_KEY :: trace w) as Htr.
  { rewrite getCachedTranslation_run in Hget.
    injection Hget as _ <-. reflexivity. }
  destruct (trusted language cached) eqn:Htrust.
  - apply trusted_usable in Htrust as (value & -> & Huse).
    split; intros _; exists value; repeat split; auto; try apply Huse.
    apply emitted_prefix. unfold after.
    rewrite (t_run language text w Hne), Hget.
    replace (trusted language (Some value)) with true; [exact Htr|].
    symmetry. apply trusted_usable. eauto.
  - split.
    + intros (value & [= ->] & _ & _ & Hem). exfalso.
      destruct (retranslate_emits language text w1) as (events & Hev & Hin).
      rewrite (emitted_prefix (t language text) w
                 (events ++ [EvGetItem CACHE_KEY])) in Hem.
      * destruct events; [contradiction|].
        destruct events; discriminate.
      * unfold after in *. rewrite (t_run language text w Hne), Hget.
        simpl in Htrust. rewrite Htrust, Hev, Htr, <- app_assoc.
        reflexivity.
    + intros (value & [= ->] & Huse). exfalso.
      assert (trusted language (Some value) = true) as E
        by (apply trusted_usable; eauto).
      congruence.
Qed.

Lemma t_serves_exactly_usable_entries_witness :
  "es" <> "en" /\
  exists value, served_from_cache hola_world "es" "Hello" value.
Proof.
  split; [discriminate|].
  apply (t_serves_exactly_usable_entries "es" "Hello" hola_world);
    [discriminate|].
  exists "Hola". split; [vm_compute; reflexivity|].
  split; [discriminate|reflexivity].
Defined.

(** ** The provider indirection *)

(** C8. When a provider is registered and its call fulfils, the
    response is that string with "en" as detected source language.
    And every response, success or fallback, carries "en" there: a
    provider hands back a string and nothing else. *)
Theorem aiTranslate_wraps_provider_string
    (req : AITranslationRequest) (w : World)
    (fn : Provider) (translated : string) :
  aiProviderTranslate w = Some fn ->
  fn (EvTranslate req :: trace w) (text req) (targetLanguage req)
    = Fulfilled translated ->
  result (aiTranslate req) w =
    Ok {| translatedText := translated;
          detectedSourceLanguage := Some "en" |} /\
  (forall req' w', exists res,
      result (aiTranslate req') w' = Ok res /\
      detectedSourceLanguage res = Some "en").
Proof.
  intros Hfn Hcall. split.
  - unfold result. now rewrite aiTranslate_run, Hfn, Hcall.
  - intros req' w'. unfold result. rewrite aiTranslate_run.
    destruct (aiProviderTranslate w') as [fn'|].
    + destruct (fn' _ _ _); eexists; split; reflexivity.
    + eexists; split; reflexivity.
Qed.

Lemma aiTranslate_wraps_provider_string_witness :
  result (aiTranslate {| text := "Hello"; targetLanguage := "es" |})
         (quiet ∅ (Some hola)) =
    Ok {| translatedText := "Hola"; detectedSourceLanguage := Some "en" |}.
Proof.
  apply (aiTranslate_wraps_provider_string
           {| text := "Hello"; targetLanguage := "es" |}
           (quiet ∅ (Some hola)) hola "Hola"); reflexivity.
Defined.

(** ** A stored [null] *)

Lemma getCachedTranslation_null (language hash : string) (w : World) :
  localStorage w !! CACHE_KEY = Some (RJson DNull) ->
  faulty w (trace w) = false ->
  getCachedTranslation language hash w
    = (Throw TypeError, record (EvGetItem CACHE_KEY) w).
Proof.
  intros Hnull Hok. rewrite getCachedTranslation_run. unfold loaded.
  now rewrite Hok, Hnull.
Qed.

(** C9, at its failing input. When the stored item is the JSON text
    "null" and localStorage answers, [loadCache] returns [null] and the
    lookup [cache[language]] throws a [TypeError], for every language
    and hash: the read raises instead of reporting a miss. *)
Theorem getCachedTranslation_throws_on_null
    (language hash : string) (w : World) :
  localStorage w !! CACHE_KEY = Some (RJson DNull) ->
  faulty w (trace w) = false ->
  result (getCachedTranslation language hash) w = Throw TypeError.
Proof.
  intros Hnull Hok. unfold result.
  now rewrite (getCachedTranslation_null _ _ _ Hnull Hok).
Qed.

Lemma getCachedTranslation_throws_on_null_witness :
  result (getCachedTranslation "es" (hashText "Hello")) null_world
    = Throw TypeError.
Proof.
  apply (getCachedTranslation_throws_on_null "es" (hashText "Hello")
           null_world); reflexivity.
Defined.

(** What does hold of the read: under a language that inherits
    nothing, a localStorage failure, an absent item, an empty or an
    unparsable one all read as a miss; and on a cache object, with a
    hash that inherits nothing either, the read never throws. *)
Lemma getCachedTranslation_miss_on_failure
    (language hash : string) (w : World) :
  plain language ->
  unreadable w ->
  result (getCachedTranslation language hash) w = Ok None.
Proof.
  intros Hl Hun. unfold result. rewrite getCachedTranslation_run. simpl.
  assert (loaded w = DCache ∅) as ->.
  { unfold unreadable, loaded in *. destruct Hun as [H|H]; [now rewrite H|].
    destruct (faulty w (trace w)); [reflexivity|].
    destruct H as [->|[->| ->]]; reflexivity. }
  unfold read. rewrite lookup_empty. now rewrite Hl.
Qed.

Lemma getCachedTranslation_returns_on_object
    (language hash : string) (w : World) :
  object_store w -> plain language -> plain hash ->
  exists cached, result (getCachedTranslation language hash) w = Ok cached.
Proof.
  intros Hobj Hl Hh. unfold result. rewrite getCachedTranslation_run. simpl.
  destruct (loaded_object w w Hobj eq_refl) as [c ->].
  rewrite (read_plain _ _ _ Hl Hh). eauto.
Qed.

(** C1, at its failing input. With a stored "null" and a language
    other than "en", the TypeError of the lookup escapes [t]: the
    promise rejects, whatever the text and the provider. *)
Theorem t_rejects_on_null (language text : string) (w : World) :
  language <> "en" ->
  localStorage w !! CACHE_KEY = Some (RJson DNull) ->
  faulty w (trace w) = false ->
  result (t language text) w = Throw TypeError.
Proof.
  intros Hne Hnull Hok. unfold result. rewrite (t_run _ _ _ Hne).
  now rewrite (getCachedTranslation_null _ _ _ Hnull Hok).
Qed.

Lemma t_rejects_on_null_witness :
  result (t "es" "Hello") (quiet {[ CACHE_KEY := RJson DNull ]} (Some hola))
    = Throw TypeError.
Proof.
  apply (t_rejects_on_null "es" "Hello"
           (quiet {[ CACHE_KEY := RJson DNull ]} (Some hola)));
    [discriminate|reflexivity|reflexivity].
Defined.

(** On a stored item that is empty, unparsable or a cache object,
    and under a language that inherits nothing, [t] resolves to a
    string for every text, provider slot, provider behaviour and
    pattern of localStorage failures. *)
Lemma t_resolves_on_object (language text : string) (w : World) :
  object_store w ->
  plain language ->
  exists answer, result (t language text) w = Ok answer.
Proof.
  intros Hobj Hl. unfold result.
  destruct (String.eqb_spec language "en") as [->|Hne].
  { rewrite t_en. eauto. }
  rewrite (t_run _ _ _ Hne), getCachedTranslation_run.
  destruct (loaded_object w w Hobj eq_refl) as [c ->].
  rewrite (read_plain _ _ _ Hl (hashText_plain text)).
  destruct (trusted language _); [eauto|].
  destruct (retranslate_run language text (record (EvGetItem CACHE_KEY) w))
    as (res & events & _ & ->).
  destruct (loaded_object w
              (extend events (record (EvGetItem CACHE_KEY) w))
              Hobj eq_refl) as [c' ->].
  rewrite (written_plain _ _ _ _ Hl (hashText_plain text)). eauto.
Qed.

(** ** The cache write *)

Lemma lookup2_empty (language hash : string) :
  lookup2 ∅ language hash = None.
Proof. unfold lookup2. now rewrite lookup_empty. Qed.

Section Upsert.

Context (c : TranslationCache) (language hash value : string).

Lemma lookup2_upsert_eq :
  lookup2 (upsert c language hash value) language hash = Some value.
Proof.
  unfold lookup2, upsert. rewrite lookup_insert_eq. simpl.
  apply lookup_insert_eq.
Qed.

Lemma lookup2_upsert_ne (language' hash' : string) :
  (language', hash') <> (language, hash) ->
  lookup2 (upsert c language hash value) language' hash'
    = lookup2 c language' hash'.
Proof.
  intros Hne. unfold lookup2, upsert.
  destruct (decide (language = language')) as [<-|Hl].
  - rewrite lookup_insert_eq. simpl.
    rewrite lookup_insert_ne by congruence.
    destruct (c !! language); simpl; [reflexivity|apply lookup_empty].
  - now rewrite lookup_insert_ne.
Qed.

Lemma upsert_idempotent :
  upsert (upsert c language hash value) language hash value
    = upsert c language hash value.
Proof.
  unfold upsert. rewrite lookup_insert_eq. simpl.
  now rewrite insert_insert_eq, insert_insert_eq.
Qed.

End Upsert.

Lemma entry_stored_cache (w : World) (language hash : string) :
  entry w language hash = lookup2 (stored_cache w) language hash.
Proof.
  unfold entry, stored_cache.
  destruct (localStorage w !! CACHE_KEY) as [[| |[|c|j]]|];
    now rewrite ?lookup2_empty.
Qed.

Lemma loaded_reliable (w : World) :
  object_store w -> faulty w (trace w) = false ->
  loaded w = DCache (stored_cache w).
Proof.
  unfold object_store, loaded, stored_cache. intros Hobj ->.
  destruct (localStorage w !! CACHE_KEY) as [[| |[|c|j]]|];
    try contradiction; reflexivity.
Qed.

(** Reads and writes when localStorage never throws and the stored
    item is empty, unparsable or a cache object. *)
Section ReliableStore.

Variable w : World.
Hypothesis Hobj : object_store w.
Hypothesis Hrel : reliable w.

Lemma getCachedTranslation_reliable (language hash : string) :
  getCachedTranslation language hash w =
  (read (stored_cache w) language hash, record (EvGetItem CACHE_KEY) w).
Proof.
  rewrite getCachedTranslation_run.
  now rewrite (loaded_reliable w Hobj (Hrel _)).
Qed.

Lemma setCachedTranslation_reliable (language hash value : string) :
  setCachedTranslation language hash value w =
  match written (stored_cache w) language hash value with
  | Some c' =>
      (Ok tt,
       with_storage (<[CACHE_KEY := RJson (DCache c')]> (localStorage w))
         (extend [EvSetItem CACHE_KEY (RJson (DCache c'));
                  EvGetItem CACHE_KEY] w))
  | None => (Beyond, record (EvGetItem CACHE_KEY) w)
  end.
Proof.
  rewrite setCachedTranslation_run.
  rewrite (loaded_reliable w Hobj (Hrel _)).
  destruct (written _ _ _ _); [|reflexivity].
  unfold saved. simpl. now rewrite Hrel.
Qed.

End ReliableStore.

(** The world a reliable write leaves behind. *)
Lemma set_world (language hash value : string) (w : World)
    (c' : TranslationCache) :
  object_store w -> reliable w ->
  written (stored_cache w) language hash value = Some c' ->
  let w' := after (setCachedTranslation language hash value) w in
  result (setCachedTranslation language hash value) w = Ok tt /\
  object_store w' /\ reliable w' /\
  stored_cache w' = c' /\
  localStorage w' = <[CACHE_KEY := RJson (DCache c')]> (localStorage w) /\
  aiProviderTranslate w' = aiProviderTranslate w.
Proof.
  intros Hobj Hrel Hw w'. unfold w', result, after.
  rewrite (setCachedTranslation_reliable w Hobj Hrel), Hw. simpl.
  unfold object_store, stored_cache. simpl. rewrite lookup_insert_eq.
  repeat split; auto.
Qed.


(** The positive part of C10, on a stored item that is empty,
    unparsable or a cache object and for keys that inherit nothing:
    no error whatever localStorage does; with localStorage working the
    entry holds the value, all other entries read as before, none
    disappears and a repeated write changes nothing; a throwing
    [setItem] leaves localStorage unchanged. *)
Lemma setCachedTranslation_upserts_plain_keys
    (language hash value : string) (w : World) :
  object_store w ->
  plain language ->
  plain hash ->
  let write := setCachedTranslation language hash value in
  result write w = Ok tt /\
  (reliable w ->
     entry (after write w) language hash = Some value /\
     (forall language' hash',
         (language', hash') <> (language, hash) ->
         entry (after write w) language' hash' = entry w language' hash') /\
     (forall language' hash',
         is_Some (entry w language' hash') ->
         is_Some (entry (after write w) language' hash')) /\
     result write (after write w) = Ok tt /\
     localStorage (after write (after write w))
       = localStorage (after write w)) /\
  (faulty w (EvGetItem CACHE_KEY :: trace w) = true ->
     localStorage (after write w) = localStorage w).
Proof.
  intros Hobj Hl Hh write. unfold write.
  split; [|split].
  - unfold result. rewrite setCachedTranslation_run.
    destruct (loaded_object w w Hobj eq_refl) as [c ->].
    now rewrite (written_plain _ _ _ _ Hl Hh).
  - intros Hrel.
    destruct (set_world language hash value w _ Hobj Hrel
                (written_plain _ _ _ _ Hl Hh))
      as (_ & Hobj' & Hrel' & Hc' & Hs' & _).
    set (w' := after (setCachedTranslation language hash value) w) in *.
    assert (forall l h, entry w' l h
                        = lookup2 (upsert (stored_cache w) language hash value)
                                  l h) as Hentry.
    { intros l h. now rewrite entry_stored_cache, Hc'. }
    assert (forall l h, (l, h) <> (language, hash) ->
                        entry w' l h = entry w l h) as Hframe.
    { intros l h Hne. rewrite Hentry, entry_stored_cache.
      now apply lookup2_upsert_ne. }
    assert (written (stored_cache w') language hash value
            = Some (upsert (stored_cache w) language hash value)) as Hagain.
    { rewrite (written_plain _ _ _ _ Hl Hh), Hc'.
      now rewrite upsert_idempotent. }
    destruct (set_world language hash value w' _ Hobj' Hrel' Hagain)
      as (Hok2 & _ & _ & _ & Hs2 & _).
    split; [|split; [|split; [|split]]].
    + rewrite Hentry. apply lookup2_upsert_eq.
    + exact Hframe.
    + intros l h Hsome.
      destruct (decide ((l, h) = (language, hash))) as [[= -> ->]|Hne].
      * rewrite Hentry, lookup2_upsert_eq. eauto.
      * now rewrite Hframe.
    + exact Hok2.
    + rewrite Hs2, Hs'. apply insert_insert_eq.
  - intros Hfail. unfold after. rewrite setCachedTranslation_run.
    destruct (loaded_object w w Hobj eq_refl) as [c ->].
    rewrite (written_plain _ _ _ _ Hl Hh). simpl.
    rewrite saved_storage. simpl. now rewrite Hfail.
Qed.

(** C10, at its failing input. When the stored item is the JSON text
    "null" and localStorage answers, [setCachedTranslation] throws a
    [TypeError] at [cache[language]], for every language, hash and
    value: the caller sees an error, nothing is stored and the entry
    is not there afterwards. *)
Theorem setCachedTranslation_throws_on_null
    (language hash value : string) (w : World) :
  localStorage w !! CACHE_KEY = Some (RJson DNull) ->
  faulty w (trace w) = false ->
  let write := setCachedTranslation language hash value in
  result write w = Throw TypeError /\
  localStorage (after write w) = localStorage w /\
  entry (after write w) language hash = None.
Proof.
  intros Hnull Hok write. unfold write, result, after.
  rewrite setCachedTranslation_run. unfold loaded. rewrite Hok, Hnull.
  simpl. repeat split. unfold entry. simpl. now rewrite Hnull.
Qed.

Lemma setCachedTranslation_throws_on_null_witness :
  result (setCachedTranslation "es" (hashText "Hello") "Hola") null_world
    = Throw TypeError.
Proof.
  apply (setCachedTranslation_throws_on_null "es" (hashText "Hello") "Hola"
           null_world); reflexivity.
Defined.

(** Under a storage failure: when the read inside
    [setCachedTranslation] throws and the write then succeeds, the
    stored object is replaced by one that holds the new entry alone. *)
Example failed_read_then_write_drops_entries :
  let w := {| localStorage := localStorage hola_world;
              aiProviderTranslate := None;
              faulty := first_call_fails;
              trace := [] |} in
  entry w "es" (hashText "Hello") = Some "Hola" /\
  entry (after (setCachedTranslation "es" (hashText "Bye") "Adios") w)
        "es" (hashText "Hello") = None.
Proof. split; vm_compute; reflexivity. Qed.

(** ** Translating again and writing back *)

Lemma retranslate_object (language text : string) (w : World) :
  object_store w ->
  plain language ->
  exists res events,
    aiTranslate {| text := text; targetLanguage := language |} w
      = (Ok res, extend events w) /\
    (In (EvTranslate {| text := text; targetLanguage := language |}) events /\
     (is_Some (aiProviderTranslate w) -> In (EvProvider text language) events)) /\
    result (retranslate language text) w = Ok (translatedText res) /\
    wrote_entry w (after (retranslate language text) w)
                language (hashText text) (translatedText res) /\
    trace (after (retranslate language text) w) =
      EvSetItem CACHE_KEY
        (RJson (DCache (upsert
           match loaded (extend events w) with DCache c => c | _ => ∅ end
           language (hashText text) (translatedText res))))
      :: EvGetItem CACHE_KEY :: events ++ trace w.
Proof.
  intros Hobj Hl.
  destruct (retranslate_run language text w) as (res & events & Hrun & Hre).
  exists res, events. split; [exact Hrun|]. split.
  { destruct (aiTranslate_returns
                {| text := text; targetLanguage := language |} w)
      as (res' & events' & Hrun' & Hin & _ & Hprov).
    rewrite Hrun in Hrun'. injection Hrun' as _ Hev.
    apply app_inv_tail in Hev. subst events'. now split. }
  unfold result, after. rewrite Hre.
  destruct (loaded_object w (extend events w) Hobj eq_refl) as [c ->].
  rewrite (written_plain _ _ _ _ Hl (hashText_plain text)). simpl.
  split; [reflexivity|]. split.
  - exists (upsert c language (hashText text) (translatedText res)).
    autorewrite with saved. simpl.
    split; [reflexivity|]. split; [apply lookup2_upsert_eq|].
    intros ->. apply lookup_insert_eq.
  - now rewrite saved_trace.
Qed.

(** The positive part of C3, on a stored item that is empty,
    unparsable or a cache object and under a language that inherits
    nothing: after a lookup that finds nothing, or a value starting
    with the marker, [t] enters [aiTranslate] with (text, language),
    hands localStorage a cache object holding the response's
    [translatedText] under (language, hashText text), and resolves to
    it. *)
Lemma t_retranslates_on_cache_object
    (language text : string) (w : World) (cached : option string) :
  language <> "en" ->
  object_store w ->
  plain language ->
  result (getCachedTranslation language (hashText text)) w = Ok cached ->
  cached = None \/
  (exists value,
      cached = Some value /\ startsWith value (marker language) = true) ->
  let req := {| text := text; targetLanguage := language |} in
  exists res,
    result (aiTranslate req)
           (after (getCachedTranslation language (hashText text)) w)
      = Ok res /\
    In (EvTranslate req) (emitted (t language text) w) /\
    (is_Some (aiProviderTranslate w) ->
     In (EvProvider text language) (emitted (t language text) w)) /\
    result (t language text) w = Ok (translatedText res) /\
    wrote_entry w (after (t language text) w)
                language (hashText text) (translatedText res).
Proof.
  intros Hne Hobj Hl Hget Hcached req.
  assert (trusted language cached = false) as Htrust.
  { destruct Hcached as [->|(value & -> & Hp)]; [reflexivity|].
    unfold trusted. simpl. rewrite Hp.
    destruct (negb (String.eqb value "")); reflexivity. }
  set (w1 := record (EvGetItem CACHE_KEY) w).
  pose proof (t_miss language text w cached Hne Hget Htrust) as Ht.
  fold w1 in Ht.
  destruct (retranslate_object language text w1 Hobj Hl)
    as (res & events & Hrun & [Hin Hprov] & Hres & Hwrote & Htr).
  exists res. rewrite getCachedTranslation_after.
  assert (emitted (t language text) w =
          (EvSetItem CACHE_KEY
             (RJson (DCache (upsert
                match loaded (extend events w1) with
                | DCache c => c
                | _ => ∅
                end language (hashText text) (translatedText res))))
           :: EvGetItem CACHE_KEY :: events) ++ [EvGetItem CACHE_KEY])
    as ->.
  { apply emitted_app_cons. unfold after. rewrite Ht. exact Htr. }
  unfold result, after in *. rewrite Ht. fold w1. subst req.
  rewrite Hrun. repeat split; auto.
  - right; right. apply in_or_app. now left.
  - intros Hsome. right; right. apply in_or_app. left. now apply Hprov.
Qed.

(** C3, at a failing input. The stored item is the JSON text "null"
    and the first [getItem] throws, so the lookup of [t] reports a
    miss; localStorage works from then on, so the [loadCache] inside
    [setCachedTranslation] returns [null] and [cache[language]] throws
    a [TypeError] that nothing catches: after the miss and the
    translation, [t] rejects instead of writing and resolving. *)
Theorem t_rejects_when_write_loads_null
    (language text : string) (w : World) :
  language <> "en" ->
  plain language ->
  localStorage w !! CACHE_KEY = Some (RJson DNull) ->
  faulty w (trace w) = true ->
  (forall events, events <> [] -> faulty w (events ++ trace w) = false) ->
  result (getCachedTranslation language (hashText text)) w = Ok None /\
  result (t language text) w = Throw TypeError.
Proof.
  intros Hne Hl Hnull Hfirst Hlater.
  assert (result (getCachedTranslation language (hashText text)) w = Ok None)
    as Hget.
  { apply getCachedTranslation_miss_on_failure; [exact Hl|now left]. }
  split; [exact Hget|].
  unfold result. rewrite (t_miss language text w None Hne Hget eq_refl).
  destruct (retranslate_run language text (record (EvGetItem CACHE_KEY) w))
    as (res & events & _ & ->).
  assert (loaded (extend events (record (EvGetItem CACHE_KEY) w)) = DNull)
    as ->; [|reflexivity].
  unfold loaded. simpl.
  change (events ++ EvGetItem CACHE_KEY :: trace w)
    with (events ++ [EvGetItem CACHE_KEY] ++ trace w).
  rewrite app_assoc, Hlater, Hnull; [reflexivity|].
  now destruct events.
Qed.

Lemma t_rejects_when_write_loads_null_witness :
  result (t "es" "Hello")
         {| localStorage := {[ CACHE_KEY := RJson DNull ]};
            aiProviderTranslate := Some hola;
            faulty := first_call_fails;
            trace := [] |}
    = Throw TypeError.
Proof.
  apply (t_rejects_when_write_loads_null "es" "Hello"
           {| localStorage := {[ CACHE_KEY := RJson DNull ]};
              aiProviderTranslate := Some hola;
              faulty := first_call_fails;
              trace := [] |}).
  - discriminate.
  - reflexivity.
  - reflexivity.
  - reflexivity.
  - intros events Hev. destruct events; [contradiction|reflexivity].
Defined.

Example self_healing :
  result (t "es" "Hello") healed_world = Ok "Hola" /\
  entry (after (t "es" "Hello") healed_world) "es" (hashText "Hello")
    = Some "Hola".
Proof. split; vm_compute; reflexivity. Qed.

Example trusted_cache_needs_no_provider :
  result (t "es" "Hello") hola_world = Ok "Hola" /\
  emitted (t "es" "Hello") hola_world = [EvGetItem CACHE_KEY].
Proof. split; vm_compute; reflexivity. Qed.

(** ** The fallback marker *)

(** C4, as worded, fails: with no provider registered, [t] resolves
    to the text itself when the language is "en", and to the cached
    translation when a usable one is stored; in neither case is the
    marker produced or written. *)
Lemma fallback_not_for_en_nor_cached :
  ~ fallback_rule (quiet ∅ None) "en" "Hello" /\
  ~ fallback_rule hola_world "es" "Hello".
Proof.
  split; intros H; destruct (H I) as (_ & Hres & _);
    vm_compute in Hres; discriminate.
Qed.

(** C4, amended. Whenever no provider is registered, or the call of
    the registered one rejects or throws, the response of [aiTranslate]
    is exactly "[" + targetLanguage + "] " + text with "en" as detected
    source language.  And when [t] gets as far as [aiTranslate] (the
    language is not "en", the lookup found no usable value), the
    stored item is empty, unparsable or a cache object, and the
    language names no member of [Object.prototype], [t] resolves to
    that marker string and hands localStorage a cache object that
    holds it under (language, hashText text). *)
Theorem t_falls_back_to_marker
    (language text : string) (w : World) (cached : option string) :
  language <> "en" ->
  object_store w ->
  plain language ->
  result (getCachedTranslation language (hashText text)) w = Ok cached ->
  ~ (exists value, cached = Some value /\ usable language value) ->
  provider_fails (after (getCachedTranslation language (hashText text)) w)
                 {| text := text; targetLanguage := language |} ->
  let fallback := "[" +:+ language +:+ "] " +:+ text in
  (forall text' language' w',
      provider_fails w' {| text := text'; targetLanguage := language' |} ->
      result (aiTranslate {| text := text'; targetLanguage := language' |}) w'
        = Ok {| translatedText := "[" +:+ language' +:+ "] " +:+ text';
                detectedSourceLanguage := Some "en" |}) /\
  result (t language text) w = Ok fallback /\
  wrote_entry w (after (t language text) w)
              language (hashText text) fallback.
Proof.
  intros Hne Hobj Hl Hget Hcached Hprov fallback.
  assert (forall req w', provider_fails w' req ->
                         result (aiTranslate req) w' = Ok (mock req))
    as Hmock.
  { intros req w' Hun. unfold result, provider_fails in *.
    rewrite aiTranslate_run.
    destruct (aiProviderTranslate w') as [fn|]; [|reflexivity].
    destruct (fn _ _ _); [contradiction|reflexivity|reflexivity]. }
  split; [intros text' language' w'; apply Hmock|].
  assert (trusted language cached = false) as Htrust.
  { destruct (trusted language cached) eqn:E; [|reflexivity].
    apply trusted_usable in E. contradiction. }
  rewrite getCachedTranslation_after in Hprov.
  set (w1 := record (EvGetItem CACHE_KEY) w) in *.
  pose proof (t_miss language text w cached Hne Hget Htrust) as Ht.
  fold w1 in Ht.
  destruct (retranslate_object language text w1 Hobj Hl)
    as (res & events & Hrun & _ & Hres & Hwrote & _).
  pose proof (Hmock _ w1 Hprov) as Hm.
  unfold result in Hm. rewrite Hrun in Hm. simpl in Hm.
  injection Hm as ->.
  unfold result, after in *. rewrite Ht. split; [exact Hres|exact Hwrote].
Qed.

Lemma t_falls_back_to_marker_witness :
  result (t "es" "Hello") (quiet ∅ (Some rejecting)) = Ok "[es] Hello" /\
  wrote_entry (quiet ∅ (Some rejecting))
              (after (t "es" "Hello") (quiet ∅ (Some rejecting)))
              "es" (hashText "Hello") "[es] Hello".
Proof.
  apply (t_falls_back_to_marker "es" "Hello" (quiet ∅ (Some rejecting)) None).
  - discriminate.
  - exact I.
  - reflexivity.
  - vm_compute. reflexivity.
  - intros (value & Hv & _). discriminate.
  - exact I.
Defined.

Example no_provider_gives_marker :
  result (t "es" "Hello") (quiet ∅ None) = Ok "[es] Hello" /\
  entry (after (t "es" "Hello") (quiet ∅ None)) "es" (hashText "Hello")
    = Some "[es] Hello".
Proof. split; vm_compute; reflexivity. Qed.

(** ** Calling [t] twice *)

Lemma t_hit (language text value : string) (w : World) :
  language <> "en" ->
  object_store w ->
  faulty w (trace w) = false ->
  lookup2 (stored_cache w) language (hashText text) = Some value ->
  usable language value ->
  t language text w = (Ok value, record (EvGetItem CACHE_KEY) w).
Proof.
  intros Hne Hobj Hok Hlook Huse.
  rewrite (t_run _ _ _ Hne), getCachedTranslation_run.
  rewrite (loaded_reliable w Hobj Hok), (read_own _ _ _ _ Hlook).
  replace (trusted language (Some value)) with true; [reflexivity|].
  symmetry. apply trusted_usable. eauto.
Qed.

(** [t] after a miss, with localStorage working. *)
Lemma t_miss_reliable (language text : string) (w : World)
    (cached : option string) :
  language <> "en" ->
  object_store w ->
  reliable w ->
  read (stored_cache w) language (hashText text) = Ok cached ->
  trusted language cached = false ->
  t language text w =
  match aiTranslate {| text := text; targetLanguage := language |}
                    (record (EvGetItem CACHE_KEY) w) with
  | (Ok res, w2) =>
      (Ok (translatedText res),
       with_storage
         (<[CACHE_KEY :=
              RJson (DCache (upsert (stored_cache w) language (hashText text)
                                    (translatedText res)))]>
            (localStorage w))
         (extend [EvSetItem CACHE_KEY
                    (RJson (DCache (upsert (stored_cache w) language
                                           (hashText text) (translatedText res))));
                  EvGetItem CACHE_KEY] w2))
  | (Throw e, w2) => (Throw e, w2)
  | (Beyond, w2) => (Beyond, w2)
  end.
Proof.
  intros Hne Hobj Hrel Hread Htrust.
  rewrite (t_run _ _ _ Hne), (getCachedTranslation_reliable w Hobj Hrel).
  rewrite Hread, Htrust.
  set (w1 := record (EvGetItem CACHE_KEY) w).
  destruct (aiTranslate_returns {| text := text; targetLanguage := language |} w1)
    as (res & events & Hrun & _).
  unfold retranslate, bind. rewrite Hrun.
  rewrite (setCachedTranslation_reliable (extend events w1) Hobj Hrel).
  change (stored_cache (extend events w1)) with (stored_cache w).
  now rewrite (written_after_read _ _ _ _ _ _ Hread (hashText_plain text)).
Qed.

(** C7, as worded, fails: a provider that rejects is called again by
    the second [t], and one whose first answer is empty is called
    again and may answer differently. *)
Lemma failed_or_empty_answer_retried :
  ~ idempotence_rule (quiet ∅ (Some rejecting)) "es" "Hello" /\
  ~ idempotence_rule (quiet ∅ (Some late_answer)) "es" "Hello".
Proof.
  split; intros H; destruct H as (_ & Hcalls);
    try (eexists; reflexivity); try (intros history; reflexivity);
    vm_compute in Hcalls; lia.
Qed.

Example rejecting_provider_called_twice :
  result (twice "es" "Hello") (quiet ∅ (Some rejecting))
    = Ok ("[es] Hello", "[es] Hello") /\
  provider_calls (emitted (twice "es" "Hello") (quiet ∅ (Some rejecting)))
    = 2%nat.
Proof. split; vm_compute; reflexivity. Qed.

Example empty_answer_not_reused :
  result (twice "es" "Hello") (quiet ∅ (Some late_answer)) = Ok ("", "Hola").
Proof. vm_compute. reflexivity. Qed.

(** C7, amended. With localStorage working and a stored item that is
    empty, unparsable or a cache object: if the first [t] resolves to a usable string (non-empty
    and not starting with "[" + language + "] "), or the language is
    "en", then a second [t] for the same text and language resolves to
    the same string, and registered provider functions are called at
    most once over the two calls. *)
Theorem twice_same_answer_one_provider_call
    (language text first : string) (w : World) :
  object_store w ->
  reliable w ->
  result (t language text) w = Ok first ->
  language = "en" \/ usable language first ->
  result (twice language text) w = Ok (first, first) /\
  (provider_calls (emitted (twice language text) w) <= 1)%nat.
Proof.
  intros Hobj Hrel Hfirst Hcase.
  destruct (String.eqb_spec language "en") as [->|Hne].
  { unfold result in Hfirst. rewrite t_en in Hfirst. injection Hfirst as <-.
    assert (twice "en" text w = (Ok (text, text), w)) as Htw by reflexivity.
    unfold result. rewrite Htw. split; [reflexivity|].
    rewrite (emitted_prefix (twice "en" text) w []); [simpl; lia|].
    unfold after. now rewrite Htw. }
  destruct Hcase as [?|Huse]; [contradiction|].
  set (w1 := record (EvGetItem CACHE_KEY) w).
  destruct (read (stored_cache w) language (hashText text))
    as [cached|e|] eqn:Hread.
  2,3: exfalso; unfold result in Hfirst;
       rewrite (t_run _ _ _ Hne), (getCachedTranslation_reliable w Hobj Hrel),
         Hread in Hfirst; discriminate.
  destruct (trusted language cached) eqn:Htrust.
  - (* the first call is served from the cache, and so is the second *)
    assert (t language text w = (Ok (default "" cached), w1)) as Ht.
    { rewrite (t_run _ _ _ Hne), (getCachedTranslation_reliable w Hobj Hrel).
      now rewrite Hread, Htrust. }
    apply trusted_usable in Htrust as (value & -> & _).
    simpl in Ht.
    assert (value = first) as ->.
    { unfold result in Hfirst. rewrite Ht in Hfirst. now injection Hfirst. }
    pose proof (read_ok _ _ _ _ Hread) as Hlook. symmetry in Hlook.
    assert (twice language text w =
            (Ok (first, first), extend [EvGetItem CACHE_KEY] w1)) as Htw.
    { unfold twice, bind. rewrite Ht.
      now rewrite (t_hit language text first w1 Hne Hobj (Hrel _) Hlook Huse). }
    unfold result. rewrite Htw. split; [reflexivity|].
    rewrite (emitted_prefix (twice language text) w
               [EvGetItem CACHE_KEY; EvGetItem CACHE_KEY]); [simpl; lia|].
    unfold after. now rewrite Htw.
  - (* the first call translates and writes; the second finds the entry *)
    pose proof (t_miss_reliable _ _ _ _ Hne Hobj Hrel Hread Htrust) as Ht.
    fold w1 in Ht.
    destruct (aiTranslate_returns
                {| text := text; targetLanguage := language |} w1)
      as (res & events & Hrun & _ & Hcalls & _).
    rewrite Hrun in Ht.
    assert (translatedText res = first) as Hres.
    { unfold result in Hfirst. rewrite Ht in Hfirst. now injection Hfirst. }
    rewrite Hres in *.
    match type of Ht with _ = (_, ?w') => set (w2 := w') in * end.
    assert (object_store w2) as Hobj2.
    { unfold object_store, w2. simpl. now rewrite lookup_insert_eq. }
    assert (lookup2 (stored_cache w2) language (hashText text) = Some first)
      as Hlook.
    { unfold stored_cache, w2. simpl. rewrite lookup_insert_eq.
      apply lookup2_upsert_eq. }
    assert (twice language text w =
            (Ok (first, first), record (EvGetItem CACHE_KEY) w2)) as Htw.
    { unfold twice, bind. rewrite Ht.
      now rewrite (t_hit language text first w2 Hne Hobj2 (Hrel _) Hlook Huse). }
    unfold result. rewrite Htw. split; [reflexivity|].
    rewrite (emitted_prefix (twice language text) w
               (EvGetItem CACHE_KEY
                :: EvSetItem CACHE_KEY
                     (RJson (DCache (upsert (stored_cache w) language
                                            (hashText text) first)))
                :: EvGetItem CACHE_KEY :: events ++ [EvGetItem CACHE_KEY])).
    + simpl. rewrite provider_calls_app. simpl. lia.
    + unfold after. rewrite Htw. simpl. now rewrite <- app_assoc.
Qed.

Lemma twice_same_answer_one_provider_call_witness :
  result (twice "es" "Hello") (quiet ∅ (Some hola)) = Ok ("Hola", "Hola") /\
  (provider_calls (emitted (twice "es" "Hello") (quiet ∅ (Some hola))) <= 1)%nat.
Proof.
  apply (twice_same_answer_one_provider_call
           "es" "Hello" "Hola" (quiet ∅ (Some hola))).
  - exact I.
  - intros history. reflexivity.
  - vm_compute. reflexivity.
  - right. split; [discriminate|reflexivity].
Defined.

(** * Further properties of the code *)

(** ** The hash as a polynomial *)

Section Horner.

Local Open Scope Z_scope.

Lemma hash_step_31 (hash chr : Z) :
  hash_step hash chr = JsNum.ToInt32 (31 * hash + chr).
Proof.
  rewrite hash_step_reference. unfold Reference.step.
  rewrite Z.shiftl_mul_pow2, ToInt32_wrap32 by lia.
  f_equal. lia.
Qed.

Lemma ToInt32_congr_31 (x y chr : Z) :
  JsNum.ToInt32 x = JsNum.ToInt32 y ->
  JsNum.ToInt32 (31 * x + chr) = JsNum.ToInt32 (31 * y + chr).
Proof.
  intros H.
  destruct (ToInt32_shift x) as [k Hk]. destruct (ToInt32_shift y) as [k' Hk'].
  rewrite !ToInt32_wrap32.
  replace (31 * x + chr) with (31 * y + chr + (31 * (k' - k)) * 2 ^ 32) by lia.
  apply wrap32_period.
Qed.

Lemma horner_congr (units : list Z) (x y : Z) :
  JsNum.ToInt32 x = JsNum.ToInt32 y ->
  JsNum.ToInt32 (horner units x) = JsNum.ToInt32 (horner units y).
Proof.
  revert x y. induction units as [|chr units IH]; intros x y H.
  - exact H.
  - unfold horner in *. simpl. apply IH. now apply ToInt32_congr_31.
Qed.

Lemma ToInt32_idem (z : Z) : JsNum.ToInt32 (JsNum.ToInt32 z) = JsNum.ToInt32 z.
Proof. apply ToInt32_small, ToInt32_int32. Qed.

Lemma hash_loop_horner (units : list Z) (start : Z) :
  JsNum.ToInt32 (hash_loop units start) = JsNum.ToInt32 (horner units start).
Proof.
  revert start. induction units as [|chr units IH]; intros start.
  - reflexivity.
  - unfold hash_loop, horner in *. simpl. rewrite IH.
    apply horner_congr. rewrite hash_step_31. apply ToInt32_idem.
Qed.

End Horner.

(** X1. Wrapping after every step is the same as wrapping once at the
    end: the hash of a text is its code units read as digits in base
    31, reduced to the signed 32-bit range, and [hashText] prints
    that number. *)
Theorem hashText_is_wrapped_horner :
  (forall units : list Z,
      hash_loop units 0 = JsNum.ToInt32 (horner units 0)) /\
  (forall text : string,
      hashText text
        = JsNum.toString (JsNum.ToInt32 (horner (charCodes text) 0))).
Proof.
  assert (forall units, hash_loop units 0 = JsNum.ToInt32 (horner units 0))
    as H.
  { intros units. rewrite <- hash_loop_horner.
    symmetry. apply ToInt32_small, hash_loop_int32.
    unfold JsNum.int32. lia. }
  split; [exact H|]. intros text. unfold hashText. now rewrite H.
Qed.

(** ** The decimal key *)

Lemma to_int_not_nil (z : Z) :
  Z.to_int z <> Decimal.Pos Decimal.Nil /\
  Z.to_int z <> Decimal.Neg Decimal.Nil.
Proof.
  split; intros H; pose proof (DecimalZ.of_to z) as E; rewrite H in E;
    subst z; discriminate.
Qed.

Lemma toString_injective (a b : Z) :
  JsNum.toString a = JsNum.toString b -> a = b.
Proof.
  unfold JsNum.toString. intros H.
  apply DecimalZ.to_int_inj.
  destruct (to_int_not_nil a) as [Ha Ha'], (to_int_not_nil b) as [Hb Hb'].
  pose proof (NilZero.isi (Z.to_int a) Ha Ha') as Ea.
  pose proof (NilZero.isi (Z.to_int b) Hb Hb') as Eb.
  rewrite H in Ea. congruence.
Qed.

(** X2. The cache key of a text is the decimal rendering of an
    integer in the signed 32-bit range, and the rendering loses
    nothing: two texts get the same key exactly when the loop gives
    them the same number. *)
Theorem hashText_key_faithful :
  (forall text : string, JsNum.int32 (hash_loop (charCodes text) 0)) /\
  (forall a b : string,
      hashText a = hashText b <->
      hash_loop (charCodes a) 0 = hash_loop (charCodes b) 0).
Proof.
  split.
  - intros text. apply hash_loop_int32. unfold JsNum.int32. lia.
  - intros a b. unfold hashText. split.
    + apply toString_injective.
    + now intros ->.
Qed.

(** ** Colliding texts *)

(** X3. [t] looks translations up by hash alone: when two texts have
    the same [hashText] and a usable translation of one is cached,
    [t] resolves the other to that translation, straight from the
    cache. *)
Theorem t_serves_colliding_text
    (language a b value : string) (w : World) :
  language <> "en" ->
  faulty w (trace w) = false ->
  hashText a = hashText b ->
  entry w language (hashText a) = Some value ->
  usable language value ->
  result (t language b) w = Ok value /\
  emitted (t language b) w = [EvGetItem CACHE_KEY].
Proof.
  intros Hne Hok Hhash Hentry Huse.
  assert (object_store w) as Hobj.
  { unfold object_store, entry in *.
    destruct (localStorage w !! CACHE_KEY) as [[| |[|c|j]]|];
      try exact I; discriminate. }
  rewrite entry_stored_cache, Hhash in Hentry.
  pose proof (t_hit language b value w Hne Hobj Hok Hentry Huse) as Ht.
  unfold result. rewrite Ht. split; [reflexivity|].
  apply (emitted_prefix (t language b) w [EvGetItem CACHE_KEY]).
  unfold after. now rewrite Ht.
Qed.

Lemma t_serves_colliding_text_witness :
  "Aa" <> "BB" /\
  result (t "es" "BB")
         (quiet {[ CACHE_KEY :=
                     RJson (DCache {[ "es" := {[ hashText "Aa" := "Aa-es" ]} ]}) ]}
                None)
    = Ok "Aa-es".
Proof.
  split; [discriminate|].
  apply (t_serves_colliding_text "es" "Aa" "BB" "Aa-es").
  - discriminate.
  - reflexivity.
  - reflexivity.
  - vm_compute. reflexivity.
  - split; [discriminate|reflexivity].
Defined.

(** ** More on the cache store *)

Lemma record_storage (e : Event) (w : World) :
  localStorage (record e w) = localStorage w.
Proof. reflexivity. Qed.

(** X4. [loadCache] never throws and never writes: it makes one
    [getItem] call and returns the stored document, or the empty cache
    when the call throws or the item is absent, empty or unparsable. *)
Theorem loadCache_never_throws (w : World) :
  exists d,
    result loadCache w = Ok d /\
    (unreadable w -> d = DCache ∅) /\
    (forall d', faulty w (trace w) = false ->
                localStorage w !! CACHE_KEY = Some (RJson d') -> d = d') /\
    localStorage (after loadCache w) = localStorage w /\
    emitted loadCache w = [EvGetItem CACHE_KEY].
Proof.
  exists (loaded w). unfold result, after. rewrite loadCache_run. simpl.
  repeat split.
  - unfold unreadable, loaded. intros [H|H]; [now rewrite H|].
    destruct (faulty w (trace w)); [reflexivity|].
    destruct H as [->|[->| ->]]; reflexivity.
  - intros d' Hok Hd. unfold loaded. now rewrite Hok, Hd.
  - apply (emitted_prefix loadCache w [EvGetItem CACHE_KEY]).
    unfold after. now rewrite loadCache_run.
Qed.

(** X5. [saveCache] never throws: it makes one [setItem] call on
    [CACHE_KEY]; every other localStorage key keeps its value, and
    when the call throws localStorage is left as it was. *)
Theorem saveCache_swallows_failure (d : Doc) (w : World) :
  result (saveCache d) w = Ok tt /\
  other_keys_kept w (after (saveCache d) w) /\
  (faulty w (trace w) = true ->
   localStorage (after (saveCache d) w) = localStorage w) /\
  emitted (saveCache d) w = [EvSetItem CACHE_KEY (JSON_stringify d)].
Proof.
  unfold result, after. rewrite saveCache_run. simpl. repeat split.
  - intros key Hkey. rewrite saved_storage.
    destruct (faulty w (trace w)); [reflexivity|].
    simpl. now rewrite lookup_insert_ne.
  - intros Hf. rewrite saved_storage. now rewrite Hf.
  - apply (emitted_prefix (saveCache d) w [EvSetItem CACHE_KEY (RJson d)]).
    unfold after. rewrite saveCache_run. simpl. apply saved_trace.
Qed.

(** X6. What [saveCache] stores, [loadCache] reads back, when neither
    localStorage call throws. *)
Theorem saveCache_loadCache_round_trip (d : Doc) (w : World) :
  faulty w (trace w) = false ->
  faulty w (EvSetItem CACHE_KEY (JSON_stringify d) :: trace w) = false ->
  result loadCache (after (saveCache d) w) = Ok d.
Proof.
  intros Hsave Hload. unfold result, after.
  rewrite saveCache_run, loadCache_run. simpl.
  unfold loaded. rewrite saved_faulty, saved_trace, saved_storage.
  unfold JSON_stringify in Hload. rewrite Hload, Hsave.
  now rewrite lookup_insert_eq.
Qed.

Lemma saveCache_loadCache_round_trip_witness :
  result loadCache
         (after (saveCache (DCache {[ "fr" := {[ "1" := "Bonjour" ]} ]}))
                (quiet ∅ None))
    = Ok (DCache {[ "fr" := {[ "1" := "Bonjour" ]} ]}).
Proof.
  apply (saveCache_loadCache_round_trip
           (DCache {[ "fr" := {[ "1" := "Bonjour" ]} ]}) (quiet ∅ None));
    reflexivity.
Defined.

(** A write always leaves a stored item that is empty, unparsable or
    a cache object as such, and with localStorage working the stored
    cache is the written one. *)
Lemma written_plain_language (c : TranslationCache)
    (language hash value : string) :
  plain language ->
  written c language hash value
    = Some (<[language := put (default ∅ (c !! language)) hash value]> c).
Proof.
  unfold plain, written. intros ->. now destruct (c !! language).
Qed.


(** X7. With localStorage working, a stored item that is empty,
    unparsable or a cache object, and a language and a hash that name
    no member of [Object.prototype]: the write returns, a lookup that
    follows it returns the written value, and a lookup of any other
    (language, hash), the hash again no member of [Object.prototype],
    returns what it returned before the write. *)
Theorem setCachedTranslation_then_get
    (language hash value : string) (w : World) :
  object_store w ->
  reliable w ->
  plain language ->
  plain hash ->
  let w' := after (setCachedTranslation language hash value) w in
  result (setCachedTranslation language hash value) w = Ok tt /\
  result (getCachedTranslation language hash) w' = Ok (Some value) /\
  (forall language' hash',
      plain hash' ->
      (language', hash') <> (language, hash) ->
      result (getCachedTranslation language' hash') w'
        = result (getCachedTranslation language' hash') w).
Proof.
  intros Hobj Hrel Hl Hh w'.
  destruct (set_world language hash value w _ Hobj Hrel
              (written_plain _ _ _ _ Hl Hh))
    as (Hok & Hobj' & Hrel' & Hc & _). fold w' in Hobj', Hrel', Hc.
  split; [exact Hok|]. unfold result. split.
  - rewrite (getCachedTranslation_reliable w' Hobj' Hrel'), Hc. simpl.
    apply read_own, lookup2_upsert_eq.
  - intros language' hash' Hh' Hne.
    rewrite (getCachedTranslation_reliable w' Hobj' Hrel'), Hc.
    rewrite (getCachedTranslation_reliable w Hobj Hrel). simpl.
    unfold read, upsert.
    destruct (decide (language' = language)) as [->|Hl'].
    + assert (hash' <> hash) as Hhne by congruence.
      rewrite lookup_insert_eq, lookup_insert_ne by congruence.
      rewrite Hh', Hl.
      destruct (stored_cache w !! language) as [m|]; simpl; [reflexivity|].
      now rewrite lookup_empty.
    + now rewrite lookup_insert_ne by congruence.
Qed.

Lemma setCachedTranslation_then_get_witness :
  result (getCachedTranslation "es" (hashText "Bye"))
         (after (setCachedTranslation "es" (hashText "Bye") "Adios") hola_world)
    = Ok (Some "Adios") /\
  result (getCachedTranslation "es" (hashText "Hello"))
         (after (setCachedTranslation "es" (hashText "Bye") "Adios") hola_world)
    = Ok (Some "Hola").
Proof.
  destruct (setCachedTranslation_then_get "es" (hashText "Bye") "Adios"
              hola_world) as (_ & Hset & Hframe).
  - exact I.
  - intros history. reflexivity.
  - reflexivity.
  - reflexivity.
  - split; [exact Hset|]. rewrite Hframe; [reflexivity|reflexivity|].
    vm_compute. discriminate.
Defined.

(** X8. When the read inside [setCachedTranslation] gives nothing
    usable (it throws, or the item is absent, empty or unparsable),
    the language and the hash name no member of [Object.prototype],
    and the write goes through, the call returns and the stored item
    becomes a cache object holding the new entry and nothing else:
    whatever was stored before is gone. *)
Theorem setCachedTranslation_starts_fresh
    (language hash value : string) (w : World) :
  unreadable w ->
  plain language ->
  plain hash ->
  faulty w (EvGetItem CACHE_KEY :: trace w) = false ->
  result (setCachedTranslation language hash value) w = Ok tt /\
  localStorage (after (setCachedTranslation language hash value) w)
    !! CACHE_KEY
  = Some (RJson (DCache {[ language := {[ hash := value ]} ]})).
Proof.
  intros Hun Hl Hh Hok. unfold result, after.
  rewrite setCachedTranslation_run.
  assert (loaded w = DCache ∅) as ->.
  { unfold unreadable, loaded in *. destruct Hun as [H|H]; [now rewrite H|].
    destruct (faulty w (trace w)); [reflexivity|].
    destruct H as [->|[->| ->]]; reflexivity. }
  rewrite (written_plain _ _ _ _ Hl Hh). simpl. split; [reflexivity|].
  rewrite saved_storage. simpl. rewrite Hok, lookup_insert_eq.
  unfold upsert. rewrite lookup_empty. simpl.
  now rewrite !insert_empty.
Qed.

Lemma setCachedTranslation_starts_fresh_witness :
  localStorage
    (after (setCachedTranslation "es" (hashText "Bye") "Adios")
           {| localStorage := localStorage hola_world;
              aiProviderTranslate := None;
              faulty := first_call_fails;
              trace := [] |})
    !! CACHE_KEY
  = Some (RJson (DCache {[ "es" := {[ hashText "Bye" := "Adios" ]} ]})).
Proof.
  apply (setCachedTranslation_starts_fresh "es" (hashText "Bye") "Adios").
  - left. reflexivity.
  - reflexivity.
  - reflexivity.
  - reflexivity.
Defined.

(** X9. A lookup only reads: whether it returns or throws,
    localStorage and the provider slot are as before and one [getItem]
    call was made; with localStorage working, asking again gives the
    same answer. *)
Theorem getCachedTranslation_only_reads
    (language hash : string) (w : World) :
  let w' := after (getCachedTranslation language hash) w in
  localStorage w' = localStorage w /\
  aiProviderTranslate w' = aiProviderTranslate w /\
  emitted (getCachedTranslation language hash) w = [EvGetItem CACHE_KEY] /\
  (reliable w ->
   result (getCachedTranslation language hash) w'
     = result (getCachedTranslation language hash) w).
Proof.
  intros w'. unfold w'. rewrite getCachedTranslation_after.
  repeat split.
  - apply (emitted_prefix _ w [EvGetItem CACHE_KEY]).
    now rewrite getCachedTranslation_after.
  - intros Hrel. unfold result. rewrite !getCachedTranslation_run.
    unfold loaded. simpl. now rewrite !Hrel.
Qed.

(** ** Writes, one after another *)











(** ** More on the provider slot *)

(** X11. Registering a provider replaces whatever was registered: the
    next [aiTranslate] consults the new function alone, and the
    registration itself touches neither localStorage nor the log. *)
Theorem setAITranslateProvider_replaces
    (fn : Provider) (req : AITranslationRequest) (w : World) :
  let w' := after (setAITranslateProvider fn) w in
  result (setAITranslateProvider fn) w = Ok tt /\
  localStorage w' = localStorage w /\
  trace w' = trace w /\
  result (aiTranslate req) w' =
    match fn (EvTranslate req :: trace w) (text req) (targetLanguage req) with
    | Fulfilled translated =>
        Ok {| translatedText := translated;
              detectedSourceLanguage := Some "en" |}
    | Rejected | Threw => Ok (mock req)
    end.
Proof.
  intros w'. repeat split.
  unfold result. rewrite aiTranslate_run. simpl.
  destruct (fn _ _ _); reflexivity.
Qed.

Lemma aiTranslate_shape (req : AITranslationRequest) (w : World) :
  exists res events,
    aiTranslate req w = (Ok res, extend events w) /\
    setItem_calls events = 0%nat /\
    provider_calls events
      = match aiProviderTranslate w with Some _ => 1 | None => 0 end%nat /\
    (forall e, In e events ->
       match e with
       | EvGetItem _ | EvSetItem _ _ => False
       | EvProvider x l => x = text req /\ l = targetLanguage req
       | _ => True
       end).
Proof.
  rewrite aiTranslate_run.
  destruct (aiProviderTranslate w) as [fn|].
  - destruct (fn _ _ _); eexists _, _; (split; [reflexivity|]);
      simpl; repeat split; auto;
      intros e He; repeat (destruct He as [<-|He]; auto); contradiction.
  - eexists _, _; (split; [reflexivity|]); simpl; repeat split; auto.
    intros e He; repeat (destruct He as [<-|He]; auto); contradiction.
Qed.

(** X12. [aiTranslate] never throws, whatever the provider does, and
    never touches localStorage or the provider slot.  It calls the
    registered function exactly once, with the request's text and
    target language, and calls nothing when none is registered. *)
Theorem aiTranslate_never_throws
    (req : AITranslationRequest) (w : World) :
  let w' := after (aiTranslate req) w in
  let events := emitted (aiTranslate req) w in
  (exists res, result (aiTranslate req) w = Ok res) /\
  localStorage w' = localStorage w /\
  aiProviderTranslate w' = aiProviderTranslate w /\
  provider_calls events
    = match aiProviderTranslate w with Some _ => 1 | None => 0 end%nat /\
  (forall x l, In (EvProvider x l) events ->
               x = text req /\ l = targetLanguage req) /\
  (forall key, ~ In (EvGetItem key) events) /\
  (forall key value, ~ In (EvSetItem key value) events).
Proof.
  intros w' events.
  destruct (aiTranslate_shape req w) as (res & evs & Hrun & _ & Hcalls & Hev).
  assert (events = evs) as ->.
  { apply emitted_prefix. unfold after. now rewrite Hrun. }
  unfold w', result, after. rewrite Hrun. simpl.
  split; [eauto|]. do 3 (split; [auto|]). split; [|split].
  - intros x l Hin. apply (Hev _ Hin).
  - intros key Hin. apply (Hev _ Hin).
  - intros key value Hin. apply (Hev _ Hin).
Qed.

(** ** The fallback marker is always recognised *)

Lemma prefix_app (p s : string) : String.prefix p (p +:+ s) = true.
Proof.
  induction p as [|a p IH]; simpl.
  - now destruct s.
  - destruct (ascii_dec a a); [exact IH|contradiction].
Qed.

Lemma string_app_assoc (a b c : string) : (a +:+ b) +:+ c = a +:+ (b +:+ c).
Proof.
  induction a as [|x a IH]; [reflexivity|].
  change (String x ((a +:+ b) +:+ c) = String x (a +:+ (b +:+ c))).
  now rewrite IH.
Qed.

Lemma mock_marked (language text : string) :
  startsWith
    (translatedText (mock {| text := text; targetLanguage := language |}))
    (marker language) = true.
Proof.
  unfold startsWith.
  change (String.prefix (marker language)
            ("[" +:+ language +:+ "] " +:+ text) = true).
  replace ("[" +:+ language +:+ "] " +:+ text)
    with (marker language +:+ text).
  - apply prefix_app.
  - unfold marker. now rewrite !string_app_assoc.
Qed.

(** X13. The fallback text that [aiTranslate] makes for a target
    language always starts with the marker [t] tests for in that
    language, whatever the language and the text: [t] never takes a
    cached fallback for a translation. *)
Theorem fallback_never_trusted (language text : string) :
  let fallback :=
    translatedText (mock {| text := text; targetLanguage := language |}) in
  startsWith fallback (marker language) = true /\
  ~ usable language fallback /\
  trusted language (Some fallback) = false.
Proof.
  intros fallback. pose proof (mock_marked language text) as H.
  fold fallback in H. repeat split; [exact H| |].
  - intros [_ Hp]. congruence.
  - unfold trusted. change (default "" (Some fallback)) with fallback.
    rewrite H. destruct (truthy (Some fallback)); reflexivity.
Qed.

(** ** What [t] touches *)

Lemma extend_nil (w : World) : extend [] w = w.
Proof. now destruct w. Qed.

Lemma record_extend_record (e e' : Event) (events : list Event) (w : World) :
  record e (extend events (record e' w)) = extend (e :: events ++ [e']) w.
Proof.
  unfold record, extend. simpl. f_equal. now rewrite <- app_assoc.
Qed.

Lemma setItem_calls_app (l k : list Event) :
  setItem_calls (l ++ k) = (setItem_calls l + setItem_calls k)%nat.
Proof.
  induction l as [|e l IH]; simpl; [reflexivity|].
  destruct e; simpl; rewrite IH; reflexivity.
Qed.

Lemma setItem_calls_none (events : list Event) (key : string) (value : Raw) :
  setItem_calls events = 0%nat -> ~ In (EvSetItem key value) events.
Proof.
  induction events as [|e events IH]; simpl; [tauto|].
  destruct e; try discriminate; intros H [E|Hin];
    try discriminate; now apply IH.
Qed.

(** A stored item that is empty, unparsable, [null] or a cache object
    loads as [null] or as a cache object. *)
Lemma loaded_typed (w w' : World) :
  typed_store w -> localStorage w' = localStorage w ->
  loaded w' = DNull \/ exists c, loaded w' = DCache c.
Proof.
  unfold typed_store, loaded. intros Hty ->.
  destruct (faulty w' (trace w')); [eauto|].
  destruct (localStorage w !! CACHE_KEY) as [[| |[|c|j]]|];
    try contradiction; eauto.
Qed.

Lemma object_typed (w : World) : object_store w -> typed_store w.
Proof.
  unfold object_store, typed_store.
  now destruct (localStorage w !! CACHE_KEY) as [[| |[|c|j]]|].
Qed.

(** Every run of [t] on such an item, under a language that inherits
    nothing, stays inside the model, and either only adds events, or
    adds events and ends with one [saveCache] of a cache object. *)
Lemma t_shape (language text : string) (w : World) :
  typed_store w ->
  plain language ->
  exists events,
    (provider_calls events <= 1)%nat /\
    setItem_calls events = 0%nat /\
    result (t language text) w <> Beyond /\
    (after (t language text) w = extend events w \/
     exists c, after (t language text) w = saved (DCache c) (extend events w)).
Proof.
  intros Hty Hl.
  destruct (String.eqb_spec language "en") as [->|Hne].
  { exists []. unfold result, after. rewrite t_en, extend_nil. simpl.
    repeat split; auto; discriminate. }
  unfold result, after. rewrite (t_run _ _ _ Hne), getCachedTranslation_run.
  destruct (loaded_typed w w Hty eq_refl) as [->|[c ->]].
  { exists [EvGetItem CACHE_KEY]. simpl. repeat split; auto; discriminate. }
  rewrite (read_plain _ _ _ Hl (hashText_plain text)).
  destruct (trusted language _).
  { exists [EvGetItem CACHE_KEY]. simpl. repeat split; auto; discriminate. }
  set (w1 := record (EvGetItem CACHE_KEY) w).
  destruct (aiTranslate_shape {| text := text; targetLanguage := language |} w1)
    as (res & events & Hrun & Hset & Hcalls & _).
  destruct (retranslate_run language text w1) as (res' & events' & Hrun' & ->).
  rewrite Hrun in Hrun'. injection Hrun' as <- Hev.
  apply app_inv_tail in Hev. subst events'.
  exists (EvGetItem CACHE_KEY :: events ++ [EvGetItem CACHE_KEY]).
  split; [|split].
  - simpl. rewrite provider_calls_app, Hcalls. simpl.
    destruct (aiProviderTranslate w); lia.
  - simpl. rewrite setItem_calls_app, Hset. reflexivity.
  - unfold w1.
    destruct (loaded_typed w
                (extend events (record (EvGetItem CACHE_KEY) w)) Hty eq_refl)
      as [->|[c' ->]]; simpl.
    + split; [discriminate|]. left. apply record_extend_record.
    + rewrite (written_plain _ _ _ _ Hl (hashText_plain text)). simpl.
      split; [discriminate|]. right. eexists.
      now rewrite record_extend_record.
Qed.

(** X14. When the stored item, if there is one, is empty, unparsable,
    [null] or a cache object, and the language names no member of
    [Object.prototype]: whatever the provider and the failures of
    localStorage, a call of [t] leaves the provider slot and every
    localStorage key other than [CACHE_KEY] as they were, calls a
    provider at most once and [setItem] at most once, and what it
    passes to [setItem] is a cache object under [CACHE_KEY]. *)
Theorem t_touches_only_its_cache (language text : string) (w : World) :
  typed_store w ->
  plain language ->
  let w' := after (t language text) w in
  let events := emitted (t language text) w in
  result (t language text) w <> Beyond /\
  aiProviderTranslate w' = aiProviderTranslate w /\
  other_keys_kept w w' /\
  writes_cache_objects events /\
  (provider_calls events <= 1)%nat /\
  (setItem_calls events <= 1)%nat.
Proof.
  intros Hty Hl w' events.
  destruct (t_shape language text w Hty Hl)
    as (evs & Hcalls & Hset & Hin & [Hw|[c Hw]]).
  - assert (events = evs) as ->.
    { apply emitted_prefix. now rewrite Hw. }
    unfold w'. rewrite Hw. split; [exact Hin|]. split; [reflexivity|].
    split; [|split; [|split]].
    + intros key _. reflexivity.
    + intros key value Hev.
      exfalso. now apply (setItem_calls_none evs key value Hset).
    + exact Hcalls.
    + lia.
  - assert (events = EvSetItem CACHE_KEY (RJson (DCache c)) :: evs) as ->.
    { apply emitted_prefix. rewrite Hw. apply saved_trace. }
    unfold w'. rewrite Hw. split; [exact Hin|].
    split; [now rewrite saved_provider|].
    split; [|split; [|split]].
    + intros key Hkey. rewrite saved_storage.
      destruct (faulty _ _); [reflexivity|]. now rewrite lookup_insert_ne.
    + intros key value [[= <- <-]|Hev]; [eauto|].
      exfalso. now apply (setItem_calls_none evs key value Hset).
    + exact Hcalls.
    + simpl. lia.
Qed.

Lemma t_touches_only_its_cache_witness :
  result (t "es" "Hello") (quiet ∅ (Some hola)) <> Beyond /\
  (setItem_calls (emitted (t "es" "Hello") (quiet ∅ (Some hola))) <= 1)%nat.
Proof.
  destruct (t_touches_only_its_cache "es" "Hello" (quiet ∅ (Some hola)))
    as (Hin & _ & _ & _ & _ & Hset).
  - exact I.
  - reflexivity.
  - split; [exact Hin|exact Hset].
Defined.

(** ** The store stays readable *)

Lemma saved_keeps_object (c : TranslationCache) (w : World) :
  object_store w -> object_store (saved (DCache c) w).
Proof.
  unfold object_store. rewrite saved_storage.
  destruct (faulty _ _); [auto|]. now rewrite lookup_insert_eq.
Qed.

Lemma perform_keeps_object (c : Call) (w : World) :
  object_store w -> plain_call c ->
  described c w /\ object_store (perform c w).
Proof.
  intros Hobj Hplain.
  destruct c as [language text|fn|language hash|language hash value];
    simpl in *.
  - destruct (t_shape language text w (object_typed w Hobj) Hplain)
      as (evs & _ & _ & Hin & [->|[c ->]]); split; auto.
    now apply saved_keeps_object.
  - split; [discriminate|exact Hobj].
  - destruct Hplain as [Hl Hh].
    destruct (getCachedTranslation_returns_on_object language hash w Hobj Hl Hh)
      as [cached ->].
    split; [discriminate|]. now rewrite getCachedTranslation_after.
  - unfold result, after. rewrite setCachedTranslation_run.
    destruct (loaded_object w w Hobj eq_refl) as [c ->].
    rewrite (written_plain_language _ _ _ _ Hplain). simpl.
    split; [discriminate|]. now apply saved_keeps_object.
Qed.

(** X15. The library never stores the document [null] itself.  Start
    from a stored item that is empty, unparsable or a cache object (or
    from none), and make any sequence of [t], provider registrations,
    lookups and cache writes whose languages, and whose lookup hashes,
    name no member of [Object.prototype]: every call ends inside the
    model, the stored item is still empty, unparsable or a cache
    object, and a further [t] under such a language resolves, whatever
    providers and localStorage did in between. *)
Theorem session_keeps_store_readable (calls : list Call) (w : World) :
  object_store w ->
  Forall plain_call calls ->
  all_described calls w /\
  object_store (session calls w) /\
  (forall language text,
      plain language ->
      exists answer, result (t language text) (session calls w) = Ok answer).
Proof.
  intros Hobj Hplain.
  assert (all_described calls w /\ object_store (session calls w)) as [Hd H].
  { revert w Hobj. induction Hplain as [|c calls Hc _ IH]; intros w Hobj.
    - split; [exact I|exact Hobj].
    - destruct (perform_keeps_object c w Hobj Hc) as [Hd Hobj'].
      destruct (IH _ Hobj') as [Hds Hfinal].
      simpl. auto. }
  split; [exact Hd|]. split; [exact H|]. intros language text Hl.
  now apply t_resolves_on_object.
Qed.

Lemma session_keeps_store_readable_witness :
  exists answer,
    result (t "es" "Hello")
           (session [CallT "es" "Hello"; CallRegister rejecting;
                     CallSet "fr" "1" "Bonjour"; CallT "fr" "Bye"]
                    {| localStorage := ∅;
                       aiProviderTranslate := None;
                       faulty := write_fails;
                       trace := [] |})
      = Ok answer.
Proof.
  destruct (session_keeps_store_readable
              [CallT "es" "Hello"; CallRegister rejecting;
               CallSet "fr" "1" "Bonjour"; CallT "fr" "Bye"]
              {| localStorage := ∅;
                 aiProviderTranslate := None;
                 faulty := write_fails;
                 trace := [] |}) as (_ & _ & Hresolves).
  - exact I.
  - repeat constructor.
  - apply (Hresolves "es" "Hello"). reflexivity.
Defined.

(** ** [t] and the other entries *)

(** X16. With localStorage working and a stored item that is empty,
    unparsable or a cache object, a call of [t] changes no cached
    entry other than the one for its own language and text. *)
Theorem t_leaves_other_entries (language text : string) (w : World) :
  object_store w ->
  reliable w ->
  forall language' hash',
    (language', hash') <> (language, hashText text) ->
    entry (after (t language text) w) language' hash'
      = entry w language' hash'.
Proof.
  intros Hobj Hrel language' hash' Hother.
  destruct (String.eqb_spec language "en") as [->|Hne].
  { unfold after. now rewrite t_en. }
  destruct (read (stored_cache w) language (hashText text))
    as [cached|e|] eqn:Hread.
  2,3: unfold after;
       rewrite (t_run _ _ _ Hne), (getCachedTranslation_reliable w Hobj Hrel),
         Hread; reflexivity.
  destruct (trusted language cached) eqn:Htrust.
  - unfold after.
    rewrite (t_run _ _ _ Hne), (getCachedTranslation_reliable w Hobj Hrel).
    rewrite Hread, Htrust. reflexivity.
  - unfold after.
    rewrite (t_miss_reliable _ _ _ _ Hne Hobj Hrel Hread Htrust).
    destruct (aiTranslate_returns
                {| text := text; targetLanguage := language |}
                (record (EvGetItem CACHE_KEY) w))
      as (res & events & -> & _).
    simpl. unfold entry. simpl. rewrite lookup_insert_eq.
    rewrite (lookup2_upsert_ne _ _ _ _ _ _ Hother).
    fold (entry w language' hash'). now rewrite entry_stored_cache.
Qed.

Lemma t_leaves_other_entries_witness :
  entry (after (t "es" "Bye") hola_world) "es" (hashText "Hello")
    = Some "Hola".
Proof.
  rewrite (t_leaves_other_entries "es" "Bye" hola_world).
  - reflexivity.
  - exact I.
  - intros history. reflexivity.
  - vm_compute. discriminate.
Defined.

(** ** From fallback to translation *)

(** X17. With localStorage working, a stored item that is empty,
    unparsable or a cache object, and a language other than "en" that
    names no member of [Object.prototype]: a [t] made while no
    provider is registered and nothing is cached for the text resolves
    to the fallback marker; once a provider that answers with a usable
    string is registered, the next [t] for the same text resolves to
    that string and stores it over the marker, and the one after is
    served from the cache.  The provider is called once in all. *)
Theorem fallback_heals_after_registration
    (fn : Provider) (language text answer : string) (w : World) :
  language <> "en" ->
  plain language ->
  object_store w ->
  reliable w ->
  aiProviderTranslate w = None ->
  entry w language (hashText text) = None ->
  (forall history, fn history text language = Fulfilled answer) ->
  usable language answer ->
  result (heal fn language text) w
    = Ok ("[" +:+ language +:+ "] " +:+ text, answer, answer) /\
  entry (after (heal fn language text) w) language (hashText text)
    = Some answer /\
  provider_calls (emitted (heal fn language text) w) = 1%nat.
Proof.
  intros Hne Hl Hobj Hrel Hslot Hentry Hfn Huse.
  set (req := {| text := text; targetLanguage := language |}).
  set (fallback := translatedText (mock req)).
  (* the first call *)
  assert (read (stored_cache w) language (hashText text) = Ok None) as Hmiss.
  { rewrite (read_plain _ _ _ Hl (hashText_plain text)).
    now rewrite <- entry_stored_cache, Hentry. }
  pose proof (t_miss_reliable _ _ _ _ Hne Hobj Hrel Hmiss eq_refl) as H1.
  rewrite aiTranslate_run in H1. simpl in H1. rewrite Hslot in H1.
  fold req in H1. fold fallback in H1.
  match type of H1 with _ = (_, ?x) => set (w1 := x) in * end.
  (* the registration *)
  set (w2 := with_provider (Some fn) w1).
  assert (object_store w2) as Hobj2.
  { unfold object_store, w2, w1. simpl. now rewrite lookup_insert_eq. }
  assert (reliable w2) as Hrel2 by exact Hrel.
  assert (stored_cache w2
          = upsert (stored_cache w) language (hashText text) fallback) as Hc2.
  { unfold stored_cache at 1, w2, w1. simpl. now rewrite lookup_insert_eq. }
  (* the second call *)
  assert (read (stored_cache w2) language (hashText text) = Ok (Some fallback))
    as Hread2.
  { rewrite Hc2. apply read_own, lookup2_upsert_eq. }
  assert (trusted language (Some fallback) = false) as Hmarked.
  { unfold trusted.
    change (default "" (Some fallback)) with fallback.
    unfold fallback, req. rewrite mock_marked.
    destruct (truthy _); reflexivity. }
  pose proof (t_miss_reliable _ _ _ _ Hne Hobj2 Hrel2 Hread2 Hmarked) as H2.
  rewrite aiTranslate_run in H2. simpl in H2. rewrite Hfn in H2.
  simpl in H2.
  match type of H2 with _ = (_, ?x) => set (w3 := x) in * end.
  (* the third call *)
  assert (object_store w3) as Hobj3.
  { unfold object_store, w3. simpl. now rewrite lookup_insert_eq. }
  assert (lookup2 (stored_cache w3) language (hashText text) = Some answer)
    as Hhit.
  { unfold stored_cache at 1, w3. simpl. rewrite lookup_insert_eq.
    apply lookup2_upsert_eq. }
  pose proof (t_hit language text answer w3 Hne Hobj3 (Hrel _) Hhit Huse) as H3.
  assert (heal fn language text w
          = (Ok (fallback, answer, answer), record (EvGetItem CACHE_KEY) w3))
    as Hheal.
  { unfold heal, bind. rewrite H1.
    unfold setAITranslateProvider. fold w2.
    now rewrite H2, H3. }
  unfold result, after. rewrite Hheal. simpl. split; [reflexivity|].
  split.
  - unfold entry. simpl. rewrite lookup_insert_eq. apply lookup2_upsert_eq.
  - assert (exists events,
               trace (record (EvGetItem CACHE_KEY) w3) = events ++ trace w /\
               provider_calls events = 1%nat) as (events & Htr & Hcalls).
    { eexists [_; _; _; _; _; _; _; _; _; _; _].
      split; reflexivity. }
    rewrite (emitted_prefix (heal fn language text) w events); [exact Hcalls|].
    unfold after. now rewrite Hheal.
Qed.

Lemma fallback_heals_after_registration_witness :
  result (heal hola "es" "Hello") (quiet ∅ None)
    = Ok ("[es] Hello", "Hola", "Hola") /\
  entry (after (heal hola "es" "Hello") (quiet ∅ None)) "es" (hashText "Hello")
    = Some "Hola" /\
  provider_calls (emitted (heal hola "es" "Hello") (quiet ∅ None)) = 1%nat.
Proof.
  apply (fallback_heals_after_registration hola "es" "Hello" "Hola"
           (quiet ∅ None)).
  - discriminate.
  - reflexivity.
  - exact I.
  - intros history. reflexivity.
  - reflexivity.
  - reflexivity.
  - intros history. reflexivity.
  - split; [discriminate|reflexivity].
Defined.
